(** * dd-llm: the adapter registry and the retry / fallback orchestrator

    A shallow embedding of [dd_llm/registry.py], [dd_llm/base.py] and
    [dd_llm/provider.py].

    Conventions of the embedding.
    - Python [str] is [string] (a UTF-8 byte string: byte-wise lexicographic
      order coincides with Python's code-point order).
    - Python [float] quantities (durations, timestamps, averages) are exact
      rationals [Q]; rounding is not modelled.
    - Python [dict] is an insertion-ordered association list with unique keys.
    - Effects ([time.time], [time.sleep], [random.uniform], adapter
      construction and invocation) are threaded explicitly through a
      [World]; every effectful function also returns the trace of the
      externally visible events it performed. *)

From Stdlib Require Import String Ascii List Bool Arith ZArith QArith Qminmax.
From Stdlib Require Import Lia Lqa.
From Stdlib Require Import Sorting.Sorted Sorting.Permutation.
From Stdlib Require Import DecimalString.
Import ListNotations.

Local Open Scope nat_scope.
Local Open Scope string_scope.
Local Open Scope list_scope.

(* ------------------------------------------------------------------ *)
(** ** Python dictionaries *)

Module PyDict.

Section Dict.
Context {V : Type}.

Definition t := list (string * V).

Definition keys (d : t) : list string := map fst d.

Fixpoint get (d : t) (k : string) : option V :=
  match d with
  | [] => None
  | (k', v) :: d' => if String.eqb k' k then Some v else get d' k
  end.

(** [k in d] *)
Definition contains (d : t) (k : string) : bool :=
  match get d k with Some _ => true | None => false end.

(** [d[k] = v]: an existing key keeps its position, a new key goes last. *)
Fixpoint set (d : t) (k : string) (v : V) : t :=
  match d with
  | [] => [(k, v)]
  | (k', v') :: d' =>
      if String.eqb k' k then (k, v) :: d' else (k', v') :: set d' k v
  end.

End Dict.

Arguments t : clear implicits.

End PyDict.

(* ------------------------------------------------------------------ *)
(** ** [sorted] on lists of strings

    Python's [sorted] is a stable sort by [<=] on [str]; it is modelled by a
    stable insertion sort over [String.leb]. *)

Fixpoint insert_sorted (x : string) (l : list string) : list string :=
  match l with
  | [] => [x]
  | y :: l' => if String.leb y x then y :: insert_sorted x l' else x :: l
  end.

Definition sorted (l : list string) : list string :=
  fold_left (fun acc x => insert_sorted x acc) l [].

(** The order [sorted] sorts by: [a <= b] on [str]. *)
Definition str_le (a b : string) : Prop := String.leb a b = true.

(** [sep.join(xs)] *)
Definition join (sep : string) (xs : list string) : string :=
  String.concat sep xs.

(* ------------------------------------------------------------------ *)
(** ** Exceptions *)

(** A raised exception, as far as the library observes one:
    [type(exc).__name__] and [str(exc)].  Only subclasses of [Exception],
    the ones [except Exception] catches, are considered. *)
Record Exn := mkExn { exn_type : string; exn_msg : string }.

Definition ValueError (msg : string) : Exn := mkExn "ValueError" msg.

(** The result of a call that may raise. *)
Inductive Result (A : Type) :=
| Return (a : A)
| Raise (e : Exn).
Arguments Return {A} a.
Arguments Raise {A} e.

(* ------------------------------------------------------------------ *)
(** ** registry.py *)

Module Registry.

Section Reg.
(** The registered constructors are kept abstract here. *)
Context {Ctor : Type}.

(** [_ADAPTER_REGISTRY] *)
Definition t := PyDict.t Ctor.

Definition register_adapter (r : t) (name : string) (c : Ctor) : t :=
  PyDict.set r name c.

(** The registry reached from the empty one by a sequence of
    [register_adapter] calls, first call first. *)
Definition register_all (regs : list (string * Ctor)) : t :=
  fold_left (fun r nc => register_adapter r (fst nc) (snd nc)) regs [].

Definition list_adapters (r : t) : list string :=
  sorted (PyDict.keys r).

Definition unknown_adapter_message (r : t) (name : string) : string :=
  "Unknown adapter '" ++ name ++ "'. Available: "
    ++ join ", " (sorted (PyDict.keys r)).

(** The lookup half of [get_adapter]: the registered constructor, or the
    [ValueError]; the caller then invokes the constructor. *)
Definition get_adapter_ctor (r : t) (name : string) : Result Ctor :=
  if negb (PyDict.contains r name)
  then Raise (ValueError (unknown_adapter_message r name))
  else match PyDict.get r name with
       | Some c => Return c
       | None => Raise (mkExn "KeyError" name)
       end.
End Reg.

Arguments t : clear implicits.

End Registry.

(* ------------------------------------------------------------------ *)
(** ** base.py *)

(** A chat message [{"role": ..., "content": ...}]. *)
Record Message := mkMessage { msg_role : string; msg_content : string }.

(** An error dict as the orchestrator builds it: keys ["provider"],
    ["attempt"], ["error"], ["error_type"], ["timestamp"]. *)
Record ErrorRecord := mkErrorRecord {
  err_provider : string;
  err_attempt : nat;
  err_error : string;
  err_error_type : string;
  err_timestamp : Q
}.

(** An error dict inside a response returned by an adapter.  The
    orchestrator reads such a dict only through [.get("error", "unknown")],
    so it is represented by the value under ["error"], if the key is there. *)
Definition AdapterError := option string.

(** [LLMResponse], over the type [E] of its error dicts: an adapter returns
    [LLMResponse AdapterError], the orchestrator [LLMResponse ErrorRecord]. *)
Record LLMResponse (E : Type) := mkLLMResponse {
  content : string;
  success : bool;
  provider : string;
  model : string;
  input_tokens : Z;
  output_tokens : Z;
  latency_ms : Q;
  cost_usd : option Q;
  attempts : nat;
  total_time : Q;
  error_history : option (list E)
}.
Arguments mkLLMResponse {E}.
Arguments content {E}.
Arguments success {E}.
Arguments provider {E}.
Arguments model {E}.
Arguments input_tokens {E}.
Arguments output_tokens {E}.
Arguments latency_ms {E}.
Arguments cost_usd {E}.
Arguments attempts {E}.
Arguments total_time {E}.
Arguments error_history {E}.

(** [LLMResponse(content, success, provider, model, ...)] with the
    dataclass defaults for the fields that are not given. *)
Definition new_response {E} (c : string) (ok : bool) (p m : string)
    (n : nat) (t : Q) (h : option (list E)) : LLMResponse E :=
  mkLLMResponse c ok p m 0%Z 0%Z 0%Q None n t h.

(** [x or default] on an optional string: [None] and [""] are falsy. *)
Definition str_or (x : option string) (default : string) : string :=
  match x with
  | Some s => if String.eqb s "" then default else s
  | None => default
  end.

(** [l or None] and [h or []] on lists. *)
Definition list_or_None {A} (l : list A) : option (list A) :=
  match l with [] => None | _ => Some l end.

Definition list_or_empty {A} (h : option (list A)) : list A :=
  match h with Some l => l | None => [] end.

(** Keyword arguments forwarded untouched to constructors and adapters. *)
Definition Kwargs := list (string * string).

(** Events of a run that are visible outside the orchestrator. *)
Inductive Event :=
| EvResolve (name : string) (ok : bool)
| EvInvoke (name : string) (attempt : nat) (request : list Message)
           (model_arg : string) (outcome : Result (LLMResponse AdapterError))
| EvSleep (seconds : Q).

(* ------------------------------------------------------------------ *)
(** ** provider.py *)

(** [str(i)] for a non-negative [int]. *)
Definition str_of_nat (n : nat) : string :=
  NilEmpty.string_of_uint (Nat.to_uint n).

(** [enumerate(xs, start)] *)
Fixpoint enumerate {A} (xs : list A) (start : nat) : list (nat * A) :=
  match xs with
  | [] => []
  | x :: xs' => (start, x) :: enumerate xs' (S start)
  end.

(** The slice [xs[-3:]]. *)
Definition last3 {A} (xs : list A) : list A :=
  skipn (length xs - 3) xs.

Definition newline : string := String (ascii_of_nat 10) "".

(** The list object an expression evaluates to, relative to the list
    object [messages] of the caller: that very object, or a new list. *)
Inductive ListRef :=
| SameObject
| NewObject (l : list Message).

Definition deref (r : ListRef) (messages : list Message) : list Message :=
  match r with
  | SameObject => messages
  | NewObject l => l
  end.

(** The line [f"{i}. {err['error_type']}: {err['error']}"]. *)
Definition error_line (ie : nat * ErrorRecord) : string :=
  str_of_nat (fst ie) ++ ". " ++ err_error_type (snd ie) ++ ": "
    ++ err_error (snd ie).

Definition error_context_message (recent : list ErrorRecord) : Message :=
  let lines :=
    ["Previous attempts failed with the following errors:"]
      ++ map error_line (enumerate recent 1)
      ++ [""]
      ++ ["Please analyse these errors and provide a corrected response."] in
  mkMessage "user" (join newline lines).

Definition _add_error_context (original_messages : list Message)
    (local_errors global_errors : list ErrorRecord) : ListRef :=
  let recent := last3 (local_errors ++ global_errors) in
  match recent with
  | [] => SameObject
  | _ => NewObject (original_messages ++ [error_context_message recent])
  end.

(** A row of [provider_stats]. *)
Record ProviderStats := mkProviderStats {
  successes : nat;
  failures : nat;
  avg_time : Q
}.

(** A row of what [get_provider_stats] returns. *)
Record ProviderStatsView := mkProviderStatsView {
  view_successes : nat;
  view_failures : nat;
  view_avg_time : Q;
  success_rate : Q
}.

Definition Q_of_nat (n : nat) : Q := inject_Z (Z.of_nat n).

Definition _update_stats (provider_stats : PyDict.t ProviderStats)
    (provider_name : string) (ok : bool) (elapsed : Q)
    : PyDict.t ProviderStats :=
  let provider_stats1 :=
    if negb (PyDict.contains provider_stats provider_name)
    then PyDict.set provider_stats provider_name (mkProviderStats 0 0 0%Q)
    else provider_stats in
  match PyDict.get provider_stats1 provider_name with
  | None => provider_stats1
  | Some stats =>
      let stats1 :=
        if ok
        then mkProviderStats (successes stats + 1) (failures stats) (avg_time stats)
        else mkProviderStats (successes stats) (failures stats + 1) (avg_time stats) in
      let total := successes stats1 + failures stats1 in
      let stats2 :=
        mkProviderStats (successes stats1) (failures stats1)
          ((avg_time stats1 * Q_of_nat (total - 1) + elapsed) / Q_of_nat total)%Q in
      PyDict.set provider_stats1 provider_name stats2
  end.

Definition stats_view (stats : ProviderStats) : ProviderStatsView :=
  mkProviderStatsView (successes stats) (failures stats) (avg_time stats)
    (Q_of_nat (successes stats)
       / Q_of_nat (Nat.max (successes stats + failures stats) 1))%Q.

Definition get_provider_stats (provider_stats : PyDict.t ProviderStats)
    : PyDict.t ProviderStatsView :=
  map (fun ns => (fst ns, stats_view (snd ns))) provider_stats.

(** The configuration held by a [UnifiedLLMProvider] once [__init__] has
    resolved its arguments and the environment variables. *)
Record UnifiedLLMProvider := mkProvider {
  primary_provider : string;
  fallback_providers : list string;
  max_retries : nat;
  initial_wait : Q;
  max_wait : Q
}.

(** [(result.error_history or [{}])[-1].get("error", "unknown")] *)
Definition last_adapter_error (h : option (list AdapterError)) : string :=
  let l := match h with
           | Some (x :: xs) => x :: xs
           | _ => [None]
           end in
  match last l None with
  | Some e => e
  | None => "unknown"
  end.

(** The two ways an attempt ends. *)
Inductive Attempt :=
| Succeeded (result : LLMResponse AdapterError)
| Failed (error error_type : string).

Definition attempt_outcome (o : Result (LLMResponse AdapterError)) : Attempt :=
  match o with
  | Return result =>
      if success result then Succeeded result
      else Failed (last_adapter_error (error_history result)) "AdapterFailure"
  | Raise exc => Failed (exn_msg exc) (exn_type exc)
  end.

Definition succeeded (a : Attempt) : bool :=
  match a with Succeeded _ => true | Failed _ _ => false end.

Section Orchestrator.

(** The state of everything behind the adapters: adapter instances and
    the services they talk to. *)
Context {Env : Type}.

(** [adapter.call(messages=..., model=..., **kwargs)]: what it returns or
    raises, how long it took, the state it leaves behind, and the contents
    of the list object it was passed once it is done with it. *)
Record Invocation := mkInvocation {
  inv_outcome : Result (LLMResponse AdapterError);
  inv_elapsed : Q;
  inv_env : Env;
  inv_messages : list Message
}.

Record LLMAdapter := mkAdapter {
  adapter_call : list Message -> string -> Kwargs -> Env -> Invocation
}.

(** Calling a registered class or factory. *)
Record Construction := mkConstruction {
  con_outcome : Result LLMAdapter;
  con_elapsed : Q;
  con_env : Env
}.

Definition Ctor := Kwargs -> Env -> Construction.

Record World := mkWorld {
  now : Q;                (* what [time.time()] returns *)
  rand : nat -> Q;        (* the values [random.random()] will return *)
  rand_pos : nat;         (* how many of them were drawn *)
  env : Env
}.

Definition time_time (w : World) : Q := now w.

(** [time.sleep(seconds)].  It raises on a negative argument; the
    durations of a provider are taken to be non-negative, as the waits
    computed from them then are. *)
Definition time_sleep (seconds : Q) (w : World) : World :=
  mkWorld (now w + seconds)%Q (rand w) (rand_pos w) (env w).

(** [random.uniform(a, b)] is [a + (b - a) * random()]. *)
Definition random_uniform (a b : Q) (w : World) : Q * World :=
  ((a + (b - a) * rand w (rand_pos w))%Q,
   mkWorld (now w) (rand w) (S (rand_pos w)) (env w)).

Definition elapse (seconds : Q) (e : Env) (w : World) : World :=
  mkWorld (now w + seconds)%Q (rand w) (rand_pos w) e.

(** [get_adapter(name, **kwargs)] *)
Definition get_adapter (reg : Registry.t Ctor) (name : string)
    (kwargs : Kwargs) (w : World) : Result LLMAdapter * World :=
  match Registry.get_adapter_ctor reg name with
  | Raise e => (Raise e, w)
  | Return ctor =>
      let c := ctor kwargs (env w) in
      (con_outcome c, elapse (con_elapsed c) (con_env c) w)
  end.

Record TryResult := mkTryResult {
  tr_response : LLMResponse ErrorRecord;
  tr_world : World;
  tr_messages : list Message;   (* contents of the [messages] object *)
  tr_trace : list Event
}.

Definition with_trace (evs : list Event) (r : TryResult) : TryResult :=
  mkTryResult (tr_response r) (tr_world r) (tr_messages r)
    (evs ++ tr_trace r).

(** The backoff between two attempts: the jitter is drawn, the sleep
    performed, the wait doubled up to [max_wait]. *)
Definition backoff (self : UnifiedLLMProvider) (wait_time : Q) (w : World)
    : Q * World * list Event :=
  let '(u, w1) := random_uniform (1 # 10) (3 # 10) w in
  let jitter := (u * wait_time)%Q in
  let w2 := time_sleep (wait_time + jitter)%Q w1 in
  (Qmin (wait_time * 2)%Q (max_wait self), w2, [EvSleep (wait_time + jitter)%Q]).

(** The body of [for attempt in range(self.max_retries)], over the
    attempts still to make. *)
Fixpoint retry_loop (self : UnifiedLLMProvider) (adapter : LLMAdapter)
    (provider_name : string) (model_opt : option string)
    (global_errors : list ErrorRecord) (kwargs : Kwargs)
    (todo : list nat) (wait_time : Q) (local_errors : list ErrorRecord)
    (messages : list Message) (w : World) : TryResult :=
  match todo with
  | [] =>
      mkTryResult
        (new_response "" false provider_name (str_or model_opt "unknown")
           (max_retries self) 0%Q (Some local_errors))
        w messages []
  | attempt :: rest =>
      let effective_messages :=
        if Nat.ltb 0 attempt
        then _add_error_context messages local_errors global_errors
        else SameObject in
      let request := deref effective_messages messages in
      let inv :=
        adapter_call adapter request (str_or model_opt "") kwargs (env w) in
      let w1 := elapse (inv_elapsed inv) (inv_env inv) w in
      let messages1 :=
        match effective_messages with
        | SameObject => inv_messages inv
        | NewObject _ => messages
        end in
      let invoked :=
        EvInvoke provider_name attempt request (str_or model_opt "")
          (inv_outcome inv) in
      match attempt_outcome (inv_outcome inv) with
      | Succeeded result =>
          mkTryResult
            (mkLLMResponse (content result) (success result)
               (provider result) (model result) (input_tokens result)
               (output_tokens result) (latency_ms result) (cost_usd result)
               (attempt + 1) (total_time result)
               (list_or_None local_errors))
            w1 messages1 [invoked]
      | Failed error error_type =>
          let local_errors1 :=
            local_errors
              ++ [mkErrorRecord provider_name (attempt + 1) error error_type
                    (time_time w1)] in
          let '(wait_time1, w2, slept) :=
            if Nat.ltb attempt (max_retries self - 1)
            then backoff self wait_time w1
            else (wait_time, w1, []) in
          with_trace (invoked :: slept)
            (retry_loop self adapter provider_name model_opt global_errors
               kwargs rest wait_time1 local_errors1 messages1 w2)
      end
  end.

Definition _try_provider (self : UnifiedLLMProvider) (reg : Registry.t Ctor)
    (provider_name : string) (messages : list Message)
    (model_opt : option string) (global_errors : list ErrorRecord)
    (kwargs : Kwargs) (w : World) : TryResult :=
  match get_adapter reg provider_name [] w with
  | (Raise exc, w1) =>
      mkTryResult
        (new_response "" false provider_name (str_or model_opt "unknown")
           1 0%Q
           (Some [mkErrorRecord provider_name 0 (exn_msg exc) (exn_type exc)
                    (time_time w1)]))
        w1 messages [EvResolve provider_name false]
  | (Return adapter, w1) =>
      with_trace [EvResolve provider_name true]
        (retry_loop self adapter provider_name model_opt global_errors kwargs
           (seq 0 (max_retries self)) (initial_wait self) [] messages w1)
  end.

Record CallResult := mkCallResult {
  cr_result : Result (LLMResponse ErrorRecord);
  cr_world : World;
  cr_stats : PyDict.t ProviderStats;
  cr_messages : list Message;   (* contents of the [messages] object *)
  cr_trace : list Event
}.

Definition with_call_trace (evs : list Event) (r : CallResult) : CallResult :=
  mkCallResult (cr_result r) (cr_world r) (cr_stats r) (cr_messages r)
    (evs ++ cr_trace r).

(** [[primary] + [p for p in self.fallback_providers if p != primary]] *)
Definition providers_to_try (self : UnifiedLLMProvider)
    (provider_opt : option string) : list string :=
  let primary := str_or provider_opt (primary_provider self) in
  [primary]
    ++ filter (fun p => negb (String.eqb p primary)) (fallback_providers self).

(** [provider_name in registered], with [registered = set(list_adapters())]. *)
Definition is_registered (reg : Registry.t Ctor) (provider_name : string)
    : bool :=
  existsb (String.eqb provider_name) (Registry.list_adapters reg).

(** The body of [for provider_name in providers_to_try], over the names
    still to try, followed by the [all_failed] return. *)
Fixpoint try_providers (self : UnifiedLLMProvider) (reg : Registry.t Ctor)
    (model_opt : option string) (kwargs : Kwargs) (start_time : Q)
    (todo : list string) (error_history0 : list ErrorRecord)
    (messages : list Message) (w : World)
    (provider_stats : PyDict.t ProviderStats) : CallResult :=
  match todo with
  | [] =>
      mkCallResult
        (Return
           (new_response "" false "all_failed" (str_or model_opt "unknown")
              (length error_history0) (time_time w - start_time)%Q
              (Some error_history0)))
        w provider_stats messages []
  | provider_name :: rest =>
      if negb (is_registered reg provider_name)
      then try_providers self reg model_opt kwargs start_time rest
             error_history0 messages w provider_stats
      else
        let r := _try_provider self reg provider_name messages model_opt
                   error_history0 kwargs w in
        let result := tr_response r in
        let w1 := tr_world r in
        if success result then
          let total := (time_time w1 - start_time)%Q in
          mkCallResult
            (Return
               (mkLLMResponse (content result) (success result)
                  (provider result) (model result) (input_tokens result)
                  (output_tokens result) (latency_ms result)
                  (cost_usd result) (attempts result) total
                  (error_history result)))
            w1 (_update_stats provider_stats provider_name true total)
            (tr_messages r) (tr_trace r)
        else
          with_call_trace (tr_trace r)
            (try_providers self reg model_opt kwargs start_time rest
               (error_history0 ++ list_or_empty (error_history result))
               (tr_messages r) w1
               (_update_stats provider_stats provider_name false
                  (time_time w1 - start_time)%Q))
  end.

Definition call (self : UnifiedLLMProvider) (reg : Registry.t Ctor)
    (prompt : option string) (model_opt : option string)
    (messages : option (list Message)) (provider_opt : option string)
    (kwargs : Kwargs) (w : World) (provider_stats : PyDict.t ProviderStats)
    : CallResult :=
  match messages, prompt with
  | None, None =>
      mkCallResult
        (Raise (ValueError "Either prompt or messages must be provided"))
        w provider_stats [] []
  | _, _ =>
      let messages1 :=
        match messages, prompt with
        | Some ms, _ => ms
        | None, Some p => [mkMessage "user" p]
        | None, None => []
        end in
      try_providers self reg model_opt kwargs (time_time w)
        (providers_to_try self provider_opt) [] messages1 w provider_stats
  end.

End Orchestrator.

(* ------------------------------------------------------------------ *)
(** ** Adapters of the test suite (tests/test_provider.py)

    The environment is the [_calls] counter of the one shared
    [_FailThenSucceedAdapter] instance.  No adapter touches the list it is
    passed; each invocation takes [call_time] seconds. *)

Module Fixtures.

Definition call_time : Q := 1 # 4.

Definition pure_call (o : Result (LLMResponse AdapterError))
    (messages : list Message) (e : nat) : @Invocation nat :=
  mkInvocation o call_time e messages.

(** [_SuccessAdapter], reporting [name] as its provider. *)
Definition success_adapter (name : string) : @LLMAdapter nat :=
  mkAdapter (fun messages _ _ e =>
    pure_call (Return (new_response "ok" true name "m" 1 0%Q None))
      messages e).

(** [_FailAdapter] *)
Definition fail_adapter : @LLMAdapter nat :=
  mkAdapter (fun messages _ _ e =>
    pure_call (Raise (mkExn "RuntimeError" "always fails")) messages e).

(** [_FailThenSucceedAdapter]: the first [n - 1] calls raise. *)
Definition flaky_adapter (n : nat) : @LLMAdapter nat :=
  mkAdapter (fun messages _ _ e =>
    let calls := e + 1 in
    if Nat.ltb calls n
    then mkInvocation
           (Raise (mkExn "RuntimeError" ("fail #" ++ str_of_nat calls)))
           call_time calls messages
    else mkInvocation
           (Return (new_response "recovered" true "flaky" "m" 1 0%Q None))
           call_time calls messages).

(** An adapter that returns a failed response instead of raising. *)
Definition soft_fail_adapter : @LLMAdapter nat :=
  mkAdapter (fun messages _ _ e =>
    pure_call
      (Return (new_response "" false "soft" "m" 1 0%Q (Some [Some "timeout"])))
      messages e).

(** An adapter that appends to the list it is passed (allowed by Python,
    done by none of the adapters of the package). *)
Definition mutating_adapter : @LLMAdapter nat :=
  mkAdapter (fun messages _ _ e =>
    mkInvocation (Return (new_response "ok" true "mut" "m" 1 0%Q None))
      call_time e (messages ++ [mkMessage "system" "be brief"])).

(** A class or factory that always constructs [a]. *)
Definition ctor_of (a : @LLMAdapter nat) : @Ctor nat :=
  fun _ e => mkConstruction (Return a) 0%Q e.

(** A factory that raises. *)
Definition broken_ctor : @Ctor nat :=
  fun _ e => mkConstruction (Raise (mkExn "ImportError" "no sdk")) 0%Q e.

Definition world0 : @World nat := mkWorld 0%Q (fun _ => 0%Q) 0 0.

Definition hello : list Message := [mkMessage "user" "hello"].

End Fixtures.

Import Fixtures.

(* ------------------------------------------------------------------ *)
(** ** Reading traces *)

Definition invoke_succeeded (ev : Event) : bool :=
  match ev with
  | EvInvoke _ _ _ _ o => succeeded (attempt_outcome o)
  | _ => false
  end.

Definition is_invoke (ev : Event) : bool :=
  match ev with EvInvoke _ _ _ _ _ => true | _ => false end.

(** The outcome flags of the invocations of a trace, in order. *)
Definition invoke_results (tr : list Event) : list bool :=
  map invoke_succeeded (filter is_invoke tr).

(** The durations slept, in order. *)
Fixpoint sleeps (tr : list Event) : list Q :=
  match tr with
  | [] => []
  | EvSleep d :: tr' => d :: sleeps tr'
  | _ :: tr' => sleeps tr'
  end.

(** [(backend, attempt number)] of every failure of a trace, in order: a
    failed invocation at attempt index [i] counts as attempt [i + 1], a
    failed construction as attempt [0]. *)
Fixpoint failures_of (tr : list Event) : list (string * nat) :=
  match tr with
  | [] => []
  | EvInvoke name attempt _ _ o :: tr' =>
      if succeeded (attempt_outcome o) then failures_of tr'
      else (name, attempt + 1) :: failures_of tr'
  | EvResolve name false :: tr' => (name, 0) :: failures_of tr'
  | _ :: tr' => failures_of tr'
  end.

Definition error_key (e : ErrorRecord) : string * nat :=
  (err_provider e, err_attempt e).

(* ------------------------------------------------------------------ *)
(** ** Describing runs *)

(** The keys of the records which the attempts of indices
    [a .. a + k - 1] against one backend leave behind when they fail. *)
Definition attempt_keys (provider_name : string) (a k : nat)
    : list (string * nat) :=
  map (fun i => (provider_name, i + 1)) (seq a k).

(** A run of the retry loop from attempt index [a] that ends with a success
    at index [a + k], after [k] failures. *)
Definition loop_succeeds {Env : Type} (provider_name : string)
    (model_opt : option string) (a k : nat) (local_errors : list ErrorRecord)
    (r : @TryResult Env) : Prop :=
  exists new reply request evs,
    success reply = true
    /\ tr_trace r
       = evs ++ [EvInvoke provider_name (a + k) request
                   (str_or model_opt "") (Return reply)]
    /\ invoke_results evs = repeat false k
    /\ failures_of evs = attempt_keys provider_name a k
    /\ length (sleeps evs) = k
    /\ map error_key new = attempt_keys provider_name a k
    /\ tr_response r
       = mkLLMResponse (content reply) (success reply) (provider reply)
           (model reply) (input_tokens reply) (output_tokens reply)
           (latency_ms reply) (cost_usd reply) (a + k + 1)
           (total_time reply) (list_or_None (local_errors ++ new)).

(** A run of the retry loop from attempt index [a] in which all [n]
    attempts fail. *)
Definition loop_exhausted {Env : Type} (self : UnifiedLLMProvider)
    (provider_name : string) (model_opt : option string) (a n : nat)
    (local_errors : list ErrorRecord) (r : @TryResult Env) : Prop :=
  exists new,
    invoke_results (tr_trace r) = repeat false n
    /\ failures_of (tr_trace r) = attempt_keys provider_name a n
    /\ length (sleeps (tr_trace r)) = n - 1
    /\ map error_key new = attempt_keys provider_name a n
    /\ tr_response r
       = new_response "" false provider_name (str_or model_opt "unknown")
           (max_retries self) 0%Q (Some (local_errors ++ new)).

(** An adapter that leaves the list it is passed as it found it. *)
Definition readonly_adapter {Env : Type} (a : @LLMAdapter Env) : Prop :=
  forall messages model_arg kwargs e,
    inv_messages (adapter_call a messages model_arg kwargs e) = messages.

(** A registry all of whose constructors build such adapters. *)
Definition readonly_registry {Env : Type} (reg : Registry.t (@Ctor Env))
    : Prop :=
  forall name ctor kwargs e a,
    PyDict.get reg name = Some ctor ->
    con_outcome (ctor kwargs e) = Return a ->
    readonly_adapter a.

(** The wait in force [k] backoffs after the wait was [wait_time]: doubled
    and capped at [max_wait] after every sleep. *)
Fixpoint wait_after (self : UnifiedLLMProvider) (wait_time : Q) (k : nat) : Q :=
  match k with
  | 0 => wait_time
  | S k' => wait_after self (Qmin (wait_time * 2)%Q (max_wait self)) k'
  end.

(** The wait before the [k]-th backoff of a backend, counting from 0. *)
Definition wait_before (self : UnifiedLLMProvider) (k : nat) : Q :=
  wait_after self (initial_wait self) k.

Definition pow2 (k : nat) : Q := inject_Z (2 ^ Z.of_nat k).

(** The jitter fraction computed from the [i]-th value of [random()]. *)
Definition jitter_of (rnd : nat -> Q) (i : nat) : Q :=
  ((1 # 10) + ((3 # 10) - (1 # 10)) * rnd i)%Q.

(** A call that returns the response of a backend which succeeded at
    attempt index [k]: the trace ends with that invocation, and the response
    is the adapter's reply with [attempts], [total_time] and
    [error_history] overwritten. *)
Definition call_succeeds {Env : Type} (model_opt : option string)
    (start_time : Q) (r : @CallResult Env) : Prop :=
  exists name k new reply request evs,
    success reply = true
    /\ cr_trace r
       = evs ++ [EvInvoke name k request (str_or model_opt "") (Return reply)]
    /\ map error_key new = attempt_keys name 0 k
    /\ cr_result r
       = Return
           (mkLLMResponse (content reply) (success reply) (provider reply)
              (model reply) (input_tokens reply) (output_tokens reply)
              (latency_ms reply) (cost_usd reply) (k + 1)
              (time_time (cr_world r) - start_time)%Q (list_or_None new)).

(** A call in which no invocation succeeded: it returns the [all_failed]
    response, whose history is [error_history0] followed by one record per
    failure of the trace. *)
Definition call_all_failed {Env : Type} (model_opt : option string)
    (start_time : Q) (error_history0 : list ErrorRecord)
    (r : @CallResult Env) : Prop :=
  forallb negb (invoke_results (cr_trace r)) = true
  /\ exists new,
       map error_key new = failures_of (cr_trace r)
       /\ cr_result r
          = Return
              (new_response "" false "all_failed"
                 (str_or model_opt "unknown")
                 (length (error_history0 ++ new))
                 (time_time (cr_world r) - start_time)%Q
                 (Some (error_history0 ++ new))).

(** What the invocations of the backend [provider_name] are sent, given
    the contents [messages] of the caller's list and the errors carried
    over from earlier backends: at attempt index 0 the list itself, later
    the list followed by one message that renders the last three of the
    records of this backend's failed attempts followed by the carried-over
    records. *)
Definition request_shape (provider_name : string) (messages : list Message)
    (global_errors : list ErrorRecord) (ev : Event) : Prop :=
  match ev with
  | EvInvoke name i request _ _ =>
      name = provider_name
      /\ ((i = 0 /\ request = messages)
          \/ (0 < i
              /\ exists locals,
                   map error_key locals = attempt_keys provider_name 0 i
                   /\ request
                      = messages
                          ++ [error_context_message
                                (last3 (locals ++ global_errors))]))
  | _ => True
  end.

(** The weaker reading of [request_shape] that forgets which errors are
    rendered: attempt index 0 is sent the caller's list, any later attempt
    that list and one more message. *)
Definition sent_original_or_one_more (messages : list Message) (ev : Event)
    : Prop :=
  match ev with
  | EvInvoke _ i request _ _ =>
      (i = 0 /\ request = messages)
      \/ (0 < i /\ exists m, request = messages ++ [m])
  | _ => True
  end.

(** How many invocations of a trace failed. *)
Definition failed_invocations (tr : list Event) : nat :=
  count_occ Bool.bool_dec (invoke_results tr) false.

(** The backends a trace tried to construct, in order. *)
Fixpoint resolved (tr : list Event) : list string :=
  match tr with
  | [] => []
  | EvResolve name _ :: tr' => name :: resolved tr'
  | _ :: tr' => resolved tr'
  end.

(** One call of [_update_stats]. *)
Definition apply_update (provider_stats : PyDict.t ProviderStats)
    (u : string * bool * Q) : PyDict.t ProviderStats :=
  _update_stats provider_stats (fst (fst u)) (snd (fst u)) (snd u).

(* ------------------------------------------------------------------ *)
(** ** __init__.py: the convenience wrapper *)

(** [errors[-1]["error"] if errors else "unknown error"] *)
Definition last_error_text (errors : list ErrorRecord) : string :=
  match errors with
  | [] => "unknown error"
  | e :: errors' => err_error (last errors' e)
  end.

(** What [call_llm] makes of the outcome of [call]: the text of a
    successful response, a [RuntimeError] for a failed one; an exception of
    [call] passes through. *)
Definition call_llm_outcome (o : Result (LLMResponse ErrorRecord))
    : Result string :=
  match o with
  | Raise e => Raise e
  | Return response =>
      if negb (success response) then
        let errors := list_or_empty (error_history response) in
        Raise (mkExn "RuntimeError"
                 ("LLM call failed after " ++ str_of_nat (attempts response)
                    ++ " attempts: " ++ last_error_text errors))
      else Return (content response)
  end.

(** [call_llm(prompt, messages=..., provider=..., **kwargs)] on the global
    provider [llm]; a ["model"] keyword, which [call] takes as its own
    parameter, is [model_opt].  The second component is the run of [call]
    underneath. *)
Definition call_llm {Env : Type} (llm : UnifiedLLMProvider)
    (reg : Registry.t (@Ctor Env)) (prompt : option string)
    (messages : option (list Message)) (provider_opt model_opt : option string)
    (kwargs : Kwargs) (w : @World Env) (provider_stats : PyDict.t ProviderStats)
    : Result string * @CallResult Env :=
  let r := call llm reg prompt model_opt messages provider_opt kwargs w
             provider_stats in
  (call_llm_outcome (cr_result r), r).

(* ------------------------------------------------------------------ *)
(** ** Describing runs, continued *)

(** What a record says about the failure it stands for. *)
Definition record_details (e : ErrorRecord) : string * nat * string * string :=
  (err_provider e, err_attempt e, err_error e, err_error_type e).

(** The same for the failed invocations of a trace, in order. *)
Fixpoint failure_details (tr : list Event)
    : list (string * nat * string * string) :=
  match tr with
  | [] => []
  | EvInvoke name attempt _ _ o :: tr' =>
      match attempt_outcome o with
      | Succeeded _ => failure_details tr'
      | Failed error error_type =>
          (name, attempt + 1, error, error_type) :: failure_details tr'
      end
  | _ :: tr' => failure_details tr'
  end.

(** The elapsed times of a list of statistics updates, summed. *)
Fixpoint sum_elapsed (updates : list (string * bool * Q)) : Q :=
  match updates with
  | [] => 0%Q
  | u :: updates' => (snd u + sum_elapsed updates')%Q
  end.

(** The updates of a list that concern the backend [name]. *)
Definition updates_of (name : string) (updates : list (string * bool * Q))
    : list (string * bool * Q) :=
  filter (fun u => String.eqb (fst (fst u)) name) updates.

Definition update_ok (u : string * bool * Q) : bool := snd (fst u).

(** The bounds within which every sleep of a provider stays. *)
Definition sleep_ok (self : UnifiedLLMProvider) (d : Q) : Prop :=
  (0 <= d)%Q /\ (d <= (13 # 10) * Qmax (initial_wait self) (max_wait self))%Q.

(* ------------------------------------------------------------------ *)
(** ** adapters/claude_cli.py *)

(** [str(z)] for an [int]. *)
Definition str_of_Z (z : Z) : string := NilZero.string_of_int (Z.to_int z).

(** [len(s)]: the number of code points of a [str], that is, of the bytes
    of its UTF-8 form that are not continuation bytes. *)
Fixpoint py_len (s : string) : nat :=
  match s with
  | EmptyString => 0
  | String c s' =>
      let n := nat_of_ascii c in
      (if (Nat.leb 128 n && Nat.ltb n 192)%bool then 0 else 1) + py_len s'
  end.

Record ClaudeCLIAdapter := mkClaudeCLI {
  cli_path : string;
  timeout : Z;
  allowed_tools : list string
}.

(** [ClaudeCLIAdapter(cli_path="claude", timeout=300, allowed_tools=None)] *)
Definition new_claude_cli (path : option string) (seconds : option Z)
    (tools : option (list string)) : ClaudeCLIAdapter :=
  mkClaudeCLI
    (match path with Some p => p | None => "claude" end)
    (match seconds with Some t => t | None => 300%Z end)
    (list_or_empty tools).

(** How [subprocess.run(cmd, capture_output=True, timeout=...)] ends: with
    a completed process (exit code, captured stdout and stderr), or with an
    exception, of which two kinds are caught. *)
Inductive RunOutcome :=
| Completed (returncode : Z) (stdout stderr : string)
| FileNotFound
| TimeoutExpired
| RunRaised (e : Exn).

(** The prompt handed to the CLI. *)
Definition cli_full_prompt (prompt : string) (messages : option (list Message))
    (system : option string) : string :=
  let full_prompt :=
    match messages with
    | Some (m :: ms) =>
        join newline
          (map (fun m => (msg_role m ++ ": " ++ msg_content m)%string)
             (m :: ms))
    | _ => prompt
    end in
  match system with
  | Some s =>
      if String.eqb s "" then full_prompt
      else "System: " ++ s ++ newline ++ newline ++ "User: " ++ full_prompt
  | None => full_prompt
  end.

(** The command line. *)
Definition cli_command (self : ClaudeCLIAdapter) (full_prompt : string)
    : list string :=
  [cli_path self; "-p"; full_prompt]
    ++ match allowed_tools self with
       | [] => []
       | _ => ["--allowedTools"; join "," (allowed_tools self)]
       end.

Definition cli_failure (latency : Q) (error : string)
    : LLMResponse AdapterError :=
  mkLLMResponse "" false "claude_cli" "claude-cli" 0%Z 0%Z latency None 1 0%Q
    (Some [Some error]).

Section ClaudeCLI.

(** [b.decode("utf-8", errors="replace").strip()] on captured output. *)
Variable text_of : string -> string.

(** [ClaudeCLIAdapter.call]; [run] is [subprocess.run] and [start],
    [finish] are the readings of [time.perf_counter()] before and after. *)
Definition claude_cli_call (self : ClaudeCLIAdapter) (prompt : string)
    (messages : option (list Message)) (system : option string)
    (run : list string -> RunOutcome) (start finish : Q)
    : Result (LLMResponse AdapterError) :=
  let full_prompt := cli_full_prompt prompt messages system in
  match run (cli_command self full_prompt) with
  | FileNotFound =>
      Return
        (cli_failure 0%Q
           ("Claude CLI not found at '" ++ cli_path self ++ "'. "
              ++ "Install Claude Code: https://docs.anthropic.com/en/docs/claude-code"))
  | TimeoutExpired =>
      Return
        (cli_failure 0%Q
           ("Claude CLI timed out after " ++ str_of_Z (timeout self) ++ "s"))
  | RunRaised e => Raise e
  | Completed returncode stdout stderr =>
      let latency := ((finish - start) * 1000)%Q in
      if negb (Z.eqb returncode 0) then
        Return
          (cli_failure latency
             ("Claude CLI error (exit " ++ str_of_Z returncode ++ "): "
                ++ text_of stderr))
      else
        let content := text_of stdout in
        let input_tokens := Nat.max 1 (py_len full_prompt / 4) in
        let output_tokens :=
          if String.eqb content "" then 0
          else Nat.max 1 (py_len content / 4) in
        Return
          (mkLLMResponse content true "claude_cli" "claude-cli"
             (Z.of_nat input_tokens) (Z.of_nat output_tokens) latency
             (Some 0%Q) 1 0%Q None)
  end.

(** The world of the CLI adapter: what running a command gives, how long it
    takes, and the reading of [time.perf_counter()]. *)
Record CliEnv := mkCliEnv {
  cli_run : list string -> RunOutcome;
  cli_seconds : list string -> Q;
  cli_perf : Q
}.

(** The adapter as the orchestrator invokes it:
    [adapter.call(messages=..., model=..., **kwargs)], where the keyword
    arguments may carry a ["prompt"] and a ["system"]. *)
Definition claude_cli_adapter (self : ClaudeCLIAdapter) : @LLMAdapter CliEnv :=
  mkAdapter (fun messages _ kwargs e =>
    let prompt := match PyDict.get kwargs "prompt" with
                  | Some p => p
                  | None => ""
                  end in
    let system := PyDict.get kwargs "system" in
    let cmd := cli_command self
                 (cli_full_prompt prompt (Some messages) system) in
    let finish := (cli_perf e + cli_seconds e cmd)%Q in
    mkInvocation
      (claude_cli_call self prompt (Some messages) system (cli_run e)
         (cli_perf e) finish)
      (cli_seconds e cmd)
      (mkCliEnv (cli_run e) (cli_seconds e) finish)
      messages).

End ClaudeCLI.

(** The record details of the failures of one backend that fails in the
    same way at each of the attempt indices [todo]. *)
Definition same_failure_each_time (provider_name error error_type : string)
    (todo : list nat) : list (string * nat * string * string) :=
  map (fun i => (provider_name, i + 1, error, error_type)) todo.

(** The text with which [ClaudeCLIAdapter] reports a missing executable. *)
Definition cli_not_found_text (self : ClaudeCLIAdapter) : string :=
  "Claude CLI not found at '" ++ cli_path self ++ "'. "
    ++ "Install Claude Code: https://docs.anthropic.com/en/docs/claude-code".

(* ================================================================== *)
(** * Properties *)
(* ------------------------------------------------------------------ *)
(** * Facts about dictionaries and sorting *)

Section DictFacts.
Context {V : Type}.
Implicit Types (d : PyDict.t V) (k : string) (v : V).

Lemma get_set_same d k v : PyDict.get (PyDict.set d k v) k = Some v.
Proof.
  induction d as [|[k' v'] d IH]; simpl.
  - now rewrite String.eqb_refl.
  - destruct (String.eqb k' k) eqn:E; simpl.
    + now rewrite String.eqb_refl.
    + now rewrite E.
Qed.

Lemma get_set_other d k k' v :
  k' <> k -> PyDict.get (PyDict.set d k v) k' = PyDict.get d k'.
Proof.
  intros Hne. induction d as [|[k0 v0] d IH]; simpl.
  - destruct (String.eqb_spec k k'); congruence.
  - destruct (String.eqb_spec k0 k) as [->|Hk]; simpl.
    + destruct (String.eqb_spec k k'); congruence.
    + destruct (String.eqb_spec k0 k'); congruence.
Qed.

Lemma contains_In d k : PyDict.contains d k = true <-> In k (PyDict.keys d).
Proof.
  unfold PyDict.contains. induction d as [|[k' v'] d IH]; simpl.
  - split; [discriminate | tauto].
  - destruct (String.eqb_spec k' k) as [->|Hk].
    + split; auto.
    + rewrite IH. split; [auto | intros [H|H]; congruence].
Qed.

Lemma contains_false_In d k :
  PyDict.contains d k = false <-> ~ In k (PyDict.keys d).
Proof.
  rewrite <- contains_In. destruct (PyDict.contains d k); split; congruence.
Qed.

Lemma keys_set d k v :
  PyDict.keys (PyDict.set d k v)
  = if PyDict.contains d k then PyDict.keys d else PyDict.keys d ++ [k].
Proof.
  unfold PyDict.contains. induction d as [|[k' v'] d IH]; simpl; auto.
  destruct (String.eqb_spec k' k) as [->|Hk]; simpl; auto.
  rewrite IH. now destruct (PyDict.get d k).
Qed.

Lemma In_keys_set d k v k' :
  In k' (PyDict.keys (PyDict.set d k v)) <-> k' = k \/ In k' (PyDict.keys d).
Proof.
  rewrite keys_set. destruct (PyDict.contains d k) eqn:E.
  - apply contains_In in E. split; [tauto | intros [->|H]; auto].
  - rewrite in_app_iff. simpl. intuition.
Qed.

Lemma NoDup_keys_set d k v :
  NoDup (PyDict.keys d) -> NoDup (PyDict.keys (PyDict.set d k v)).
Proof.
  intros Hnd. rewrite keys_set. destruct (PyDict.contains d k) eqn:E; auto.
  apply contains_false_In in E.
  apply NoDup_app; auto.
  - constructor; [tauto | constructor].
  - intros x Hx [<-|[]]. tauto.
Qed.

End DictFacts.

Section SortFacts.

Lemma ascii_compare_trans_le a b c :
  Ascii.compare a b <> Gt -> Ascii.compare b c <> Gt -> Ascii.compare a c <> Gt.
Proof.
  unfold Ascii.compare. rewrite !N.compare_le_iff. apply N.le_trans.
Qed.

Lemma str_le_trans a b c : str_le a b -> str_le b c -> str_le a c.
Proof.
  unfold str_le, String.leb.
  revert b c. induction a as [|x a IH]; intros [|y b] [|z c]; simpl; auto;
    try discriminate.
  destruct (Ascii.compare x y) eqn:Exy; try discriminate;
    destruct (Ascii.compare y z) eqn:Eyz; try discriminate; intros H1 H2.
  - apply Ascii.compare_eq_iff in Exy, Eyz. subst.
    replace (Ascii.compare z z) with Eq
      by (symmetry; unfold Ascii.compare; apply N.compare_refl).
    eauto.
  - apply Ascii.compare_eq_iff in Exy. subst. now rewrite Eyz.
  - apply Ascii.compare_eq_iff in Eyz. subst. now rewrite Exy.
  - assert (Ascii.compare x z = Lt) as ->; auto.
    unfold Ascii.compare in *. rewrite N.compare_lt_iff in *.
    eapply N.lt_trans; eauto.
Qed.

Lemma str_le_total a b : str_le a b \/ str_le b a.
Proof. apply String.leb_total. Qed.

Lemma str_le_antisym a b : str_le a b -> str_le b a -> a = b.
Proof. apply String.leb_antisym. Qed.

Lemma insert_sorted_perm x l : Permutation (x :: l) (insert_sorted x l).
Proof.
  induction l as [|y l IH]; simpl; auto.
  destruct (String.leb y x); auto.
  etransitivity; [apply perm_swap|]. now constructor.
Qed.

Lemma insert_sorted_sorted x l :
  StronglySorted str_le l -> StronglySorted str_le (insert_sorted x l).
Proof.
  induction 1 as [|y l Hs IH Hall]; simpl.
  - repeat constructor.
  - destruct (String.leb y x) eqn:E.
    + constructor; auto.
      eapply Permutation_Forall; [apply insert_sorted_perm|].
      constructor; auto.
    + assert (str_le x y) as Hxy
        by (destruct (str_le_total x y) as [H|H]; auto; unfold str_le in H; congruence).
      constructor; [constructor; auto|].
      constructor; auto.
      eapply Forall_impl; [|exact Hall]. intros z Hz.
      eapply str_le_trans; eauto.
Qed.

Lemma fold_insert_perm l acc :
  Permutation (acc ++ l)
    (fold_left (fun acc x => insert_sorted x acc) l acc).
Proof.
  revert acc. induction l as [|x l IH]; intros acc; simpl.
  - now rewrite app_nil_r.
  - etransitivity; [|apply IH].
    etransitivity; [apply Permutation_sym, Permutation_middle|].
    apply (Permutation_app_tail l (insert_sorted_perm x acc)).
Qed.

Lemma fold_insert_sorted l acc :
  StronglySorted str_le acc ->
  StronglySorted str_le (fold_left (fun acc x => insert_sorted x acc) l acc).
Proof.
  revert acc. induction l as [|x l IH]; intros acc Hs; simpl; auto.
  apply IH, insert_sorted_sorted, Hs.
Qed.

Lemma sorted_perm l : Permutation l (sorted l).
Proof. apply (fold_insert_perm l []). Qed.

Lemma sorted_sorted l : StronglySorted str_le (sorted l).
Proof. apply fold_insert_sorted. constructor. Qed.

Lemma In_sorted l x : In x (sorted l) <-> In x l.
Proof.
  split; apply Permutation_in; [apply Permutation_sym|]; apply sorted_perm.
Qed.

(** A list that is sorted and has no duplicates is determined by its
    elements. *)
Lemma sorted_nodup_unique l1 l2 :
  StronglySorted str_le l1 -> StronglySorted str_le l2 ->
  NoDup l1 -> NoDup l2 ->
  (forall x, In x l1 <-> In x l2) -> l1 = l2.
Proof.
  intros S1. revert l2.
  induction S1 as [|a l1 S1 IH H1]; intros l2 S2 N1 N2 Hin.
  - destruct l2 as [|b l2]; auto.
    exfalso. apply (proj2 (Hin b)). now left.
  - destruct S2 as [|b l2 S2 H2].
    + exfalso. apply (proj1 (Hin a)). now left.
    + rewrite Forall_forall in H1, H2.
      assert (Hrefl : forall s, str_le s s)
        by (intros s; destruct (str_le_total s s); auto).
      assert (a = b) as <-.
      { apply str_le_antisym.
        - destruct (proj2 (Hin b) (or_introl eq_refl)) as [->|Hb]; auto.
        - destruct (proj1 (Hin a) (or_introl eq_refl)) as [->|Ha]; auto. }
      f_equal. inversion N1; inversion N2; subst.
      apply IH; auto.
      intros x. split; intros Hx.
      * destruct (proj1 (Hin x) (or_intror Hx)) as [->|H]; [tauto | auto].
      * destruct (proj2 (Hin x) (or_intror Hx)) as [->|H]; [tauto | auto].
Qed.

End SortFacts.

(* ------------------------------------------------------------------ *)
(** * The registry *)

Section RegistryFacts.
Context {C : Type}.

Lemma register_all_keys_aux (regs : list (string * C)) (r : Registry.t C) :
  let r' := fold_left
              (fun r nc => Registry.register_adapter r (fst nc) (snd nc))
              regs r in
  (NoDup (PyDict.keys r) -> NoDup (PyDict.keys r'))
  /\ forall n, In n (PyDict.keys r') <-> In n (PyDict.keys r) \/ In n (map fst regs).
Proof.
  revert r. induction regs as [|[k c] regs IH]; intros r; simpl.
  - split; auto. intros n. tauto.
  - destruct (IH (Registry.register_adapter r k c)) as [Hnd Hin].
    split.
    + intros H. apply Hnd. now apply NoDup_keys_set.
    + intros n. rewrite Hin. unfold Registry.register_adapter.
      rewrite In_keys_set. intuition.
Qed.

Lemma register_all_NoDup (regs : list (string * C)) :
  NoDup (PyDict.keys (Registry.register_all regs)).
Proof. apply register_all_keys_aux. constructor. Qed.

Lemma register_all_In (regs : list (string * C)) n :
  In n (PyDict.keys (Registry.register_all regs)) <-> In n (map fst regs).
Proof.
  unfold Registry.register_all.
  rewrite (proj2 (register_all_keys_aux regs [])). simpl. tauto.
Qed.

Lemma list_adapters_In (r : Registry.t C) n :
  In n (Registry.list_adapters r) <-> In n (PyDict.keys r).
Proof. apply In_sorted. Qed.

Lemma list_adapters_NoDup (r : Registry.t C) :
  NoDup (PyDict.keys r) -> NoDup (Registry.list_adapters r).
Proof. apply Permutation_NoDup, sorted_perm. Qed.

Lemma get_adapter_ctor_unknown (r : Registry.t C) name :
  ~ In name (PyDict.keys r) ->
  Registry.get_adapter_ctor r name
  = Raise (ValueError (Registry.unknown_adapter_message r name)).
Proof.
  intros H. apply contains_false_In in H.
  unfold Registry.get_adapter_ctor. now rewrite H.
Qed.

Lemma get_adapter_ctor_known (r : Registry.t C) name :
  In name (PyDict.keys r) ->
  exists c, PyDict.get r name = Some c
            /\ Registry.get_adapter_ctor r name = Return c.
Proof.
  intros H. apply contains_In in H.
  unfold Registry.get_adapter_ctor. rewrite H. simpl.
  unfold PyDict.contains in H.
  destruct (PyDict.get r name) as [c|]; [eauto | discriminate].
Qed.

End RegistryFacts.

(** C9.  Looking up a name that was never registered raises a [ValueError]
    and leaves the world alone; its message ends with the registered names,
    sorted and joined by [", "].  [list_adapters] returns exactly the
    registered names, each once, in ascending order, and two registries
    holding the same names list the same sequence, however they were
    filled. *)
Theorem registry_unknown_name_and_listing {Env : Type}
    (regs regs' : list (string * @Ctor Env)) (name : string)
    (kwargs : Kwargs) (w : @World Env) :
  ~ In name (map fst regs) ->
  (forall n, In n (map fst regs) <-> In n (map fst regs')) ->
  let r := Registry.register_all regs in
  get_adapter r name kwargs w
  = (Raise (ValueError ("Unknown adapter '" ++ name ++ "'. Available: "
                          ++ join ", " (Registry.list_adapters r))), w)
  /\ StronglySorted str_le (Registry.list_adapters r)
  /\ NoDup (Registry.list_adapters r)
  /\ (forall n, In n (Registry.list_adapters r) <-> In n (map fst regs))
  /\ Registry.list_adapters (Registry.register_all regs')
     = Registry.list_adapters r.
Proof.
  intros Hname Hsame r.
  assert (Hin : forall (rs : list (string * @Ctor Env)) n,
             In n (Registry.list_adapters (Registry.register_all rs))
             <-> In n (map fst rs)).
  { intros rs n. now rewrite list_adapters_In, register_all_In. }
  repeat split.
  - unfold get_adapter. rewrite get_adapter_ctor_unknown; auto.
    subst r. now rewrite register_all_In.
  - apply sorted_sorted.
  - apply list_adapters_NoDup, register_all_NoDup.
  - apply Hin.
  - apply Hin.
  - apply sorted_nodup_unique.
    + apply sorted_sorted.
    + apply sorted_sorted.
    + apply list_adapters_NoDup, register_all_NoDup.
    + apply list_adapters_NoDup, register_all_NoDup.
    + intros x. subst r. rewrite !Hin. symmetry. apply Hsame.
Qed.

Lemma registry_unknown_name_and_listing_witness :
  let regs := [("openai", ctor_of fail_adapter);
               ("anthropic", ctor_of (success_adapter "anthropic"));
               ("gemini", ctor_of fail_adapter)] in
  let regs' := [("gemini", ctor_of fail_adapter);
                ("openai", ctor_of fail_adapter);
                ("anthropic", ctor_of fail_adapter);
                ("openai", ctor_of (success_adapter "openai"))] in
  fst (get_adapter (Registry.register_all regs) "nonexistent_xyz" [] world0)
  = Raise (ValueError
      "Unknown adapter 'nonexistent_xyz'. Available: anthropic, gemini, openai")
  /\ Registry.list_adapters (Registry.register_all regs')
     = ["anthropic"; "gemini"; "openai"].
Proof.
  intros regs regs'.
  assert (H1 : ~ In "nonexistent_xyz" (map fst regs)).
  { simpl. intros [H|[H|[H|[]]]]; discriminate. }
  assert (H2 : forall n, In n (map fst regs) <-> In n (map fst regs')).
  { intros n. simpl. tauto. }
  destruct (registry_unknown_name_and_listing regs regs' "nonexistent_xyz"
              [] world0 H1 H2) as (Hget & _ & _ & _ & Hlist).
  split.
  - rewrite Hget. reflexivity.
  - rewrite Hlist. reflexivity.
Defined.

(* ------------------------------------------------------------------ *)
(** * Statistics *)

Lemma Q_of_nat_pos n : (0 < n)%nat -> (0 < Q_of_nat n)%Q.
Proof.
  intros H. unfold Q_of_nat, Qlt. simpl. lia.
Qed.


(* ------------------------------------------------------------------ *)
(** * Traces *)

Lemma invoke_results_app t1 t2 :
  invoke_results (t1 ++ t2) = invoke_results t1 ++ invoke_results t2.
Proof. unfold invoke_results. now rewrite filter_app, map_app. Qed.

Lemma sleeps_app t1 t2 : sleeps (t1 ++ t2) = sleeps t1 ++ sleeps t2.
Proof.
  induction t1 as [|[] t1 IH]; simpl; auto. now rewrite IH.
Qed.

Lemma failures_of_app t1 t2 :
  failures_of (t1 ++ t2) = failures_of t1 ++ failures_of t2.
Proof.
  induction t1 as [|[n [] | n i rq m o | d] t1 IH]; simpl; auto.
  - now rewrite IH.
  - destruct (succeeded (attempt_outcome o)); simpl; now rewrite IH.
Qed.

Lemma attempt_outcome_succeeded o result :
  attempt_outcome o = Succeeded result ->
  o = Return result /\ success result = true.
Proof.
  destruct o as [r|e]; simpl; [|discriminate].
  destruct (success r) eqn:E; [|discriminate].
  intros [= <-]. auto.
Qed.

Lemma repeat_false_no_true k l : repeat false k <> l ++ [true].
Proof.
  intros H.
  assert (Hin : In true (repeat false k))
    by (rewrite H, in_app_iff; simpl; auto).
  apply repeat_spec in Hin. discriminate.
Qed.

Lemma repeat_false_true_inj k k' l :
  repeat false k ++ true :: l = repeat false k' ++ [true] -> k = k' /\ l = [].
Proof.
  revert k'. induction k as [|k IH]; intros [|k']; simpl.
  - intros [= ->]. auto.
  - discriminate.
  - discriminate.
  - intros [= H]. destruct (IH _ H). auto.
Qed.

(* ------------------------------------------------------------------ *)
(** * The retry loop *)

Section RetryLoop.
Context {Env : Type}.
Variables (self : UnifiedLLMProvider) (adapter : @LLMAdapter Env)
          (provider_name : string) (model_opt : option string)
          (global_errors : list ErrorRecord) (kwargs : Kwargs).

Lemma retry_loop_outcome n :
  forall a wait_time local_errors messages w,
    a + n = max_retries self ->
    let r := retry_loop self adapter provider_name model_opt global_errors
               kwargs (seq a n) wait_time local_errors messages w in
    (exists k, k < n /\ loop_succeeds provider_name model_opt a k local_errors r)
    \/ loop_exhausted self provider_name model_opt a n local_errors r.
Proof.
  induction n as [|n IH]; intros a wait_time local_errors messages w Hmax.
  - right. exists []. simpl. rewrite app_nil_r. repeat split; reflexivity.
  - cbn [seq retry_loop]. cbv zeta.
    set (eff := if Nat.ltb 0 a then _ else _).
    set (inv := adapter_call adapter _ _ _ _).
    destruct (attempt_outcome (inv_outcome inv)) as [result|err ety] eqn:Hout.
    + left. exists 0. split; [lia|].
      apply attempt_outcome_succeeded in Hout. destruct Hout as [Ho Hs].
      exists [], result, (deref eff messages), [].
      rewrite Ho, Nat.add_0_r, app_nil_r. repeat split; auto.
    + set (rec1 := mkErrorRecord provider_name (a + 1) err ety _).
      set (w1 := elapse _ _ w).
      set (messages1 := match eff with SameObject => _ | NewObject _ => _ end).
      set (ev := EvInvoke _ _ _ _ _).
      assert (Hev_res : invoke_results [ev] = [false])
        by (unfold invoke_results; simpl; now rewrite Hout).
      assert (Hev_fail : forall t,
                 failures_of (ev :: t) = (provider_name, a + 1) :: failures_of t)
        by (intros t; simpl; now rewrite Hout).
      assert (Hev_sl : forall t, sleeps (ev :: t) = sleeps t)
        by reflexivity.
      destruct (Nat.ltb a (max_retries self - 1)) eqn:Hlt.
      * apply Nat.ltb_lt in Hlt. unfold backoff, random_uniform. cbv zeta.
        set (w2 := time_sleep _ _). set (wait1 := Qmin _ _).
        set (d := (wait_time + _)%Q).
        specialize (IH (S a) wait1 (local_errors ++ [rec1]) messages1 w2
                      ltac:(lia)).
        cbv zeta in IH.
        destruct IH as [(k & Hk & new & reply & request & evs & IH)|(new & IH)].
        -- left. exists (S k). split; [lia|].
           destruct IH as (Hs & Htr & Hres & Hfail & Hsl & Hkeys & Hresp).
           exists (rec1 :: new), reply, request, (ev :: EvSleep d :: evs).
           cbn [with_trace tr_trace tr_response].
           rewrite Htr, Hresp.
           replace (a + S k) with (S a + k) by lia.
           replace ((local_errors ++ [rec1]) ++ new)
             with (local_errors ++ rec1 :: new) by now rewrite <- app_assoc.
           split; [exact Hs|]. split; [reflexivity|].
           split.
           { change (ev :: EvSleep d :: evs) with ([ev] ++ [EvSleep d] ++ evs).
             rewrite !invoke_results_app, Hev_res, Hres. reflexivity. }
           split.
           { rewrite Hev_fail. cbn [failures_of]. rewrite Hfail. reflexivity. }
           split; [rewrite Hev_sl; cbn [sleeps length]; now rewrite Hsl|].
           split; [cbn [map]; rewrite Hkeys; reflexivity|].
           reflexivity.
        -- right.
           destruct IH as (Hres & Hfail & Hsl & Hkeys & Hresp).
           exists (rec1 :: new).
           cbn [with_trace tr_trace tr_response].
           rewrite Hresp.
           replace ((local_errors ++ [rec1]) ++ new)
             with (local_errors ++ rec1 :: new) by now rewrite <- app_assoc.
           split.
           { change [ev; EvSleep d] with ([ev] ++ [EvSleep d]).
             rewrite !invoke_results_app, Hev_res, Hres. reflexivity. }
           split.
           { rewrite <- app_comm_cons, Hev_fail. cbn [app failures_of].
             rewrite Hfail. reflexivity. }
           split; [rewrite <- app_comm_cons, Hev_sl; cbn [app sleeps length];
                   rewrite Hsl; lia|].
           split; [cbn [map]; rewrite Hkeys; reflexivity|].
           reflexivity.
      * apply Nat.ltb_ge in Hlt. assert (n = 0) as -> by lia.
        right. exists [rec1].
        cbn [seq retry_loop with_trace tr_trace tr_response app].
        split; [exact Hev_res|].
        split; [rewrite Hev_fail; reflexivity|].
        repeat split.
Qed.

End RetryLoop.

Lemma list_or_empty_or_None {A} (l : list A) :
  list_or_empty (list_or_None l) = l.
Proof. now destruct l. Qed.

Lemma attempt_keys_length name a k : length (attempt_keys name a k) = k.
Proof. unfold attempt_keys. now rewrite length_map, length_seq. Qed.

Lemma keys_length (new : list ErrorRecord) name a k :
  map error_key new = attempt_keys name a k -> length new = k.
Proof.
  intros H. rewrite <- (length_map error_key), H. apply attempt_keys_length.
Qed.

Lemma keys_provider (new : list ErrorRecord) name a k e :
  map error_key new = attempt_keys name a k -> In e new -> err_provider e = name.
Proof.
  intros H Hin. apply (in_map error_key) in Hin. rewrite H in Hin.
  unfold attempt_keys in Hin. apply in_map_iff in Hin.
  destruct Hin as (i & Hi & _). unfold error_key in Hi. congruence.
Qed.

Lemma forallb_negb_repeat_false n : forallb negb (repeat false n) = true.
Proof. induction n; simpl; auto. Qed.

(** Name the remaining iterations of the provider loop and specialise the
    induction hypothesis to them. *)
Ltac continue_with IH rest :=
  match goal with
  | |- context [try_providers ?a ?b ?c ?d ?e ?f ?h ?m ?w' ?s] =>
      specialize (IH h m w' s); cbv zeta in IH;
      set (rest := try_providers a b c d e f h m w' s) in *
  end.

Section TryProvider.
Context {Env : Type}.
Variables (self : UnifiedLLMProvider) (reg : Registry.t (@Ctor Env))
        (model_opt : option string) (kwargs : Kwargs).

Lemma try_provider_cases provider_name messages global_errors (w : @World Env) :
let r := _try_provider self reg provider_name messages model_opt
           global_errors kwargs w in
(exists exc w1,
    get_adapter reg provider_name [] w = (Raise exc, w1)
    /\ tr_trace r = [EvResolve provider_name false]
    /\ tr_response r
       = new_response "" false provider_name (str_or model_opt "unknown")
           1 0%Q
           (Some [mkErrorRecord provider_name 0 (exn_msg exc) (exn_type exc)
                    (time_time w1)]))
\/ (exists r0 : @TryResult Env,
      tr_trace r = EvResolve provider_name true :: tr_trace r0
      /\ tr_response r = tr_response r0
      /\ ((exists k, k < max_retries self
                     /\ loop_succeeds provider_name model_opt 0 k [] r0)
          \/ loop_exhausted self provider_name model_opt 0
               (max_retries self) [] r0)).
Proof.
unfold _try_provider.
destruct (get_adapter reg provider_name [] w) as [[adapter|exc] w1].
- right. eexists. split; [reflexivity|]. split; [reflexivity|].
  apply retry_loop_outcome. reflexivity.
- left. exists exc, w1. repeat split.
Qed.

Lemma try_providers_cases start_time todo :
forall error_history0 messages (w : @World Env) provider_stats,
  let r := try_providers self reg model_opt kwargs start_time todo
             error_history0 messages w provider_stats in
  call_succeeds model_opt start_time r
  \/ call_all_failed model_opt start_time error_history0 r.
Proof.
induction todo as [|name todo IH]; intros hist messages w stats.
- right. split; [reflexivity|]. exists []. rewrite app_nil_r. split; reflexivity.
- cbn [try_providers].
  destruct (is_registered reg name); cbn [negb]; [|apply IH].
  destruct (try_provider_cases name messages hist w)
    as [(exc & w1 & _ & Htr & Hresp)
       |(r0 & Htr & Hresp & [(k & Hk & Hok)|Hex])].
  + (* the constructor raised *)
    rewrite Hresp. cbn [success new_response error_history list_or_empty].
    continue_with IH rest.
    destruct IH as [Hs|[Hnone (new & Hkeys & Hres)]].
    * left. destruct Hs as (nm & k & new & reply & req & evs & Hs & Ht & Hk & Hr).
      exists nm, k, new, reply, req, (tr_trace (_try_provider self reg name
        messages model_opt hist kwargs w) ++ evs).
      cbn [with_call_trace cr_trace cr_result cr_world].
      rewrite Ht, app_assoc. auto.
    * right. unfold call_all_failed.
      cbn [with_call_trace cr_trace cr_result cr_world].
      rewrite Htr. split.
      -- exact Hnone.
      -- exists (mkErrorRecord name 0 (exn_msg exc) (exn_type exc)
                   (time_time w1) :: new).
         rewrite Hres, <- app_assoc. split; [|reflexivity].
         cbn [map app failures_of]. now rewrite Hkeys.
  + (* a success *)
    destruct Hok as (new & reply & req & evs & Hs & Ht & _ & _ & _ & Hkeys & Hr).
    rewrite Hresp, Hr. cbn [success]. rewrite Hs.
    left. exists name, k, new, reply, req, (EvResolve name true :: evs).
    cbn [cr_trace cr_result cr_world content provider model input_tokens
           output_tokens latency_ms cost_usd attempts error_history].
    rewrite Htr, Ht, Hs. repeat split; auto.
  + (* every attempt failed *)
    destruct Hex as (new1 & Hres1 & Hfail1 & _ & Hkeys1 & Hr).
    rewrite Hresp, Hr. cbn [success new_response error_history list_or_empty].
    continue_with IH rest.
    destruct IH as [Hs|[Hnone (new & Hkeys & Hres)]].
    * left. destruct Hs as (nm & k & new & reply & req & evs & Hs & Ht & Hk & Hr').
      exists nm, k, new, reply, req, (tr_trace (_try_provider self reg name
        messages model_opt hist kwargs w) ++ evs).
      cbn [with_call_trace cr_trace cr_result cr_world].
      rewrite Ht, app_assoc. auto.
    * right. unfold call_all_failed.
      cbn [with_call_trace cr_trace cr_result cr_world].
      rewrite Htr. split.
      -- rewrite <- app_comm_cons.
         change (invoke_results (EvResolve name true :: ?t))
           with (invoke_results t).
         rewrite !invoke_results_app, Hres1, !forallb_app, Hnone.
         now rewrite forallb_negb_repeat_false.
      -- exists (new1 ++ new).
         rewrite Hres, <- app_assoc. split; [|reflexivity].
         rewrite map_app, Hkeys, Hkeys1, <- Hfail1.
         rewrite <- app_comm_cons. cbn [failures_of].
         now rewrite failures_of_app.
Qed.

End TryProvider.

(* ------------------------------------------------------------------ *)
(** * Retrying one backend *)



(* ------------------------------------------------------------------ *)
(** * Calls in which nothing succeeds *)

Lemma call_unfold {Env : Type} (self : UnifiedLLMProvider)
    (reg : Registry.t (@Ctor Env)) prompt model_opt messages provider_opt
    kwargs (w : @World Env) stats :
  (messages <> None \/ prompt <> None) ->
  call self reg prompt model_opt messages provider_opt kwargs w stats
  = try_providers self reg model_opt kwargs (time_time w)
      (providers_to_try self provider_opt) []
      match messages, prompt with
      | Some ms, _ => ms
      | None, Some p => [mkMessage "user" p]
      | None, None => []
      end w stats.
Proof.
  unfold call. destruct messages, prompt; auto. intros [H|H]; congruence.
Qed.



(* ------------------------------------------------------------------ *)
(** * Failover *)

(** C1, as stated, fails.  In the failover test of the suite, with two
    retries: the primary fails twice, the fallback succeeds at once, and the
    response that comes back carries the provider name chosen by the
    adapter and no error history at all. *)
Lemma failover_response_counterexample :
  let self := mkProvider "_test_fail" ["_test_ok"] 2 (1 # 100) 30 in
  let reg := Registry.register_all
               [("_test_fail", ctor_of fail_adapter);
                ("_test_ok", ctor_of (success_adapter "success"))] in
  let r := call self reg (Some "hello") None None None [] world0 [] in
  failures_of (cr_trace r) = [("_test_fail", 1); ("_test_fail", 2)]
  /\ invoke_results (cr_trace r) = [false; false; true]
  /\ exists resp,
       cr_result r = Return resp
       /\ success resp = true
       /\ provider resp <> "_test_ok"
       /\ error_history resp = None
       /\ ~ (exists later,
               map error_key (list_or_empty (error_history resp))
               = attempt_keys "_test_fail" 0 2 ++ later).
Proof.
  intros self reg r.
  split; [reflexivity|]. split; [reflexivity|].
  eexists. split; [reflexivity|].
  split; [reflexivity|]. split; [discriminate|]. split; [reflexivity|].
  intros [later H]. discriminate H.
Qed.

(** C1, amended.  A successful response returned by [call] is the reply of
    the backend invoked last, at some attempt index [k]: it carries the
    provider name of that reply, [attempts = k + 1], and as history only
    the records of that backend's own failed attempts 1..k ([None] when
    [k = 0]); every record in it names that backend. *)
Theorem call_success_response {Env : Type}
    (self : UnifiedLLMProvider) (reg : Registry.t (@Ctor Env))
    (prompt model_opt : option string) (messages : option (list Message))
    (provider_opt : option string) (kwargs : Kwargs) (w : @World Env)
    (provider_stats : PyDict.t ProviderStats)
    (resp : LLMResponse ErrorRecord) :
  let r := call self reg prompt model_opt messages provider_opt kwargs w
             provider_stats in
  cr_result r = Return resp ->
  success resp = true ->
  exists name k request reply evs,
    cr_trace r
    = evs ++ [EvInvoke name k request (str_or model_opt "") (Return reply)]
    /\ success reply = true
    /\ provider resp = provider reply
    /\ attempts resp = k + 1
    /\ map error_key (list_or_empty (error_history resp))
       = attempt_keys name 0 k
    /\ (k = 0 -> error_history resp = None)
    /\ (forall e, In e (list_or_empty (error_history resp)) ->
          err_provider e = name).
Proof.
  intros r Hret Hsucc. subst r.
  destruct messages as [ms|] eqn:Hm, prompt as [p|] eqn:Hp;
    try (cbn [call] in Hret; discriminate Hret).
  all: rewrite call_unfold in * by (first [left; discriminate | right; discriminate]).
  all: match goal with |- context [try_providers _ _ _ _ ?st ?t ?h ?m _ _] =>
    destruct (try_providers_cases self reg model_opt kwargs st t h m w
                provider_stats)
      as [(nm & k & new & reply & req & evs & Hs & Ht & Hk & Hr)
         |[_ (new & Hkeys & Hres)]] end.
  all: try (rewrite Hres in Hret; injection Hret as <-; discriminate Hsucc).
  all: rewrite Hr in Hret; injection Hret as <-.
  all: exists nm, k, req, reply, evs.
  all: cbn [provider attempts error_history]; rewrite list_or_empty_or_None.
  all: repeat split; auto.
  all: try (intros ->; destruct new; [reflexivity | discriminate]).
  all: intros e He; eapply keys_provider; eauto.
Qed.

Lemma call_success_response_witness :
  let self := mkProvider "_test_fail" ["_test_flaky"] 3 (1 # 100) 30 in
  let reg := Registry.register_all
               [("_test_fail", ctor_of fail_adapter);
                ("_test_flaky", ctor_of (flaky_adapter 3))] in
  let r := call self reg (Some "hello") None None None [] world0 [] in
  exists resp,
    cr_result r = Return resp
    /\ map error_key (list_or_empty (error_history resp))
       = [("_test_flaky", 1); ("_test_flaky", 2)].
Proof.
  intros self reg r.
  destruct (cr_result r) as [resp|e] eqn:Hres; [|discriminate Hres].
  exists resp. split; [reflexivity|].
  assert (Hs : success resp = true) by (injection Hres as <-; reflexivity).
  destruct (call_success_response self reg (Some "hello") None None None []
              world0 [] resp Hres Hs)
    as (name & k & req & reply & evs & Ht & _ & _ & Hatt & Hkeys & _).
  assert (Hk : k = 2)
    by (injection Hres as <-; cbn [attempts] in Hatt; lia).
  assert (Hn : name = "_test_flaky").
  { apply (f_equal (fun t => last t (EvSleep 0))) in Ht.
    rewrite last_last in Ht. vm_compute in Ht. congruence. }
  rewrite Hkeys, Hk, Hn. reflexivity.
Defined.

(* ------------------------------------------------------------------ *)
(** * Validating the request *)

(** C3, as stated, fails: a call that supplies both a prompt and a message
    list is served, from the message list. *)
Lemma both_supplied_counterexample :
  let self := mkProvider "_test_ok" [] 1 1 30 in
  let reg := Registry.register_all
               [("_test_ok", ctor_of (success_adapter "success"))] in
  let r := call self reg (Some "ignored") None (Some hello) None [] world0 [] in
  (exists resp, cr_result r = Return resp /\ success resp = true)
  /\ cr_trace r
     = [EvResolve "_test_ok" true;
        EvInvoke "_test_ok" 0 hello ""
          (Return (new_response "ok" true "success" "m" 1 0%Q None))]
  /\ PyDict.keys (cr_stats r) = ["_test_ok"].
Proof.
  intros self reg r. split; [|split; reflexivity].
  eexists. split; reflexivity.
Qed.

(** C3, amended.  A call that supplies neither a prompt nor a message list
    raises [ValueError] with nothing done: the world and the statistics are
    as before and no backend was constructed or invoked.  A call that
    supplies both behaves as the call that supplies the message list
    alone. *)
Theorem call_request_validation {Env : Type}
    (self : UnifiedLLMProvider) (reg : Registry.t (@Ctor Env))
    (model_opt provider_opt : option string) (kwargs : Kwargs)
    (w : @World Env) (provider_stats : PyDict.t ProviderStats) :
  (let r := call self reg None model_opt None provider_opt kwargs w
              provider_stats in
   cr_result r
   = Raise (ValueError "Either prompt or messages must be provided")
   /\ cr_world r = w
   /\ cr_stats r = provider_stats
   /\ cr_trace r = [])
  /\ forall p ms,
       call self reg (Some p) model_opt (Some ms) provider_opt kwargs w
         provider_stats
       = call self reg None model_opt (Some ms) provider_opt kwargs w
           provider_stats.
Proof.
  split.
  - repeat split.
  - reflexivity.
Qed.

(* ------------------------------------------------------------------ *)
(** * The order of the candidates *)

Lemma is_registered_In {Env : Type} (reg : Registry.t (@Ctor Env)) n :
  is_registered reg n = true <-> In n (PyDict.keys reg).
Proof.
  unfold is_registered. rewrite existsb_exists, <- list_adapters_In.
  split.
  - intros (x & Hx & He). apply String.eqb_eq in He. now subst.
  - intros H. exists n. split; auto. apply String.eqb_refl.
Qed.



(* ------------------------------------------------------------------ *)
(** * What the backends are sent, and the caller's list *)

Lemma last3_length {A} (l : list A) : length (last3 l) = Nat.min 3 (length l).
Proof. unfold last3. rewrite length_skipn. lia. Qed.

Lemma last3_nonempty {A} (l : list A) : l <> [] -> last3 l <> [].
Proof.
  intros H E. apply (f_equal (@length A)) in E. rewrite last3_length in E.
  destruct l; [congruence | simpl in E; lia].
Qed.

Lemma add_error_context_fresh messages local_errors global_errors :
  local_errors <> [] ->
  _add_error_context messages local_errors global_errors
  = NewObject (messages
                 ++ [error_context_message
                       (last3 (local_errors ++ global_errors))]).
Proof.
  intros H. unfold _add_error_context.
  destruct (last3 (local_errors ++ global_errors)) eqn:E; auto.
  exfalso. revert E. apply last3_nonempty.
  destruct local_errors; [congruence | discriminate].
Qed.

Lemma attempt_keys_snoc name a : 
  attempt_keys name 0 (a + 1) = attempt_keys name 0 a ++ [(name, a + 1)].
Proof. unfold attempt_keys. now rewrite seq_app, map_app. Qed.

Section Requests.
Context {Env : Type}.
Variables (self : UnifiedLLMProvider) (adapter : @LLMAdapter Env)
        (provider_name : string) (model_opt : option string)
        (global_errors : list ErrorRecord) (kwargs : Kwargs).
Hypothesis adapter_readonly : readonly_adapter adapter.

Lemma retry_loop_requests n :
forall a wait_time local_errors messages (w : @World Env),
  map error_key local_errors = attempt_keys provider_name 0 a ->
  let r := retry_loop self adapter provider_name model_opt global_errors
             kwargs (seq a n) wait_time local_errors messages w in
  tr_messages r = messages
  /\ Forall (request_shape provider_name messages global_errors)
       (tr_trace r).
Proof.
induction n as [|n IH]; intros a wait_time local_errors messages w Hkeys.
- split; [reflexivity | constructor].
- cbn [seq retry_loop]. cbv zeta.
  set (eff := if Nat.ltb 0 a then _ else _).
  set (inv := adapter_call adapter _ _ _ _).
  assert (Hmsgs : match eff with
                  | SameObject => inv_messages inv
                  | NewObject _ => messages
                  end = messages).
  { destruct eff eqn:E; auto. subst inv. rewrite adapter_readonly.
    reflexivity. }
  assert (Hshape : forall o,
             request_shape provider_name messages global_errors
               (EvInvoke provider_name a (deref eff messages)
                  (str_or model_opt "") o)).
  { intros o. split; [reflexivity|]. subst eff.
    destruct a as [|a].
    - left. auto.
    - right. split; [lia|]. exists local_errors. split; [exact Hkeys|].
      cbn [Nat.ltb Nat.leb].
      rewrite add_error_context_fresh; [reflexivity|].
      intros ->. discriminate Hkeys. }
  rewrite Hmsgs.
  destruct (attempt_outcome (inv_outcome inv)) as [result|err ety].
  + split; [reflexivity|]. constructor; [apply Hshape | constructor].
  + match goal with |- context [mkErrorRecord ?p ?i ?e ?t ?ts] =>
      set (rec1 := mkErrorRecord p i e t ts) end.
    assert (Hkeys1 : map error_key (local_errors ++ [rec1])
                     = attempt_keys provider_name 0 (S a)).
    { rewrite map_app, Hkeys. replace (S a) with (a + 1) by lia.
      now rewrite attempt_keys_snoc. }
    destruct (Nat.ltb a (max_retries self - 1)).
    * unfold backoff, random_uniform. cbv zeta.
      match goal with |- context [retry_loop _ _ _ _ _ _ _ ?wt ?l ?m ?w'] =>
        destruct (IH (S a) wt l m w' Hkeys1) as [Hm Hf] end.
      cbn [with_trace tr_messages tr_trace]. split; [exact Hm|].
      constructor; [apply Hshape|]. constructor; [exact I | exact Hf].
    * match goal with |- context [retry_loop _ _ _ _ _ _ _ ?wt ?l ?m ?w'] =>
        destruct (IH (S a) wt l m w' Hkeys1) as [Hm Hf] end.
      cbn [with_trace tr_messages tr_trace]. split; [exact Hm|].
      constructor; [apply Hshape | exact Hf].
Qed.

End Requests.

Lemma get_adapter_readonly {Env : Type} (reg : Registry.t (@Ctor Env))
    name kwargs (w w1 : @World Env) a :
  readonly_registry reg ->
  get_adapter reg name kwargs w = (Return a, w1) ->
  readonly_adapter a.
Proof.
  intros Hreg. unfold get_adapter, Registry.get_adapter_ctor.
  destruct (PyDict.contains reg name); cbn [negb]; [|discriminate].
  destruct (PyDict.get reg name) as [ctor|] eqn:Hg; [|discriminate].
  intros [= Hc _]. eapply Hreg; eauto.
Qed.

Lemma try_provider_requests {Env : Type} (self : UnifiedLLMProvider)
    (reg : Registry.t (@Ctor Env)) provider_name messages model_opt
    global_errors kwargs (w : @World Env) :
  readonly_registry reg ->
  let r := _try_provider self reg provider_name messages model_opt
             global_errors kwargs w in
  tr_messages r = messages
  /\ Forall (request_shape provider_name messages global_errors) (tr_trace r).
Proof.
  intros Hreg. unfold _try_provider.
  destruct (get_adapter reg provider_name [] w) as [[adapter|exc] w1] eqn:Hg.
  - apply get_adapter_readonly in Hg; auto.
    destruct (retry_loop_requests self adapter provider_name model_opt
                global_errors kwargs Hg (max_retries self) 0
                (initial_wait self) [] messages w1 eq_refl) as [Hm Hf].
    cbn [with_trace tr_messages tr_trace]. split; [exact Hm|].
    constructor; [exact I | exact Hf].
  - split; [reflexivity|]. repeat constructor.
Qed.

Lemma request_shape_one_more name messages global_errors ev :
  request_shape name messages global_errors ev ->
  sent_original_or_one_more messages ev.
Proof.
  destruct ev as [| nm i rq m o |]; simpl; auto.
  intros [_ [H|(Hi & locals & _ & ->)]]; eauto.
Qed.

Lemma try_providers_messages {Env : Type} (self : UnifiedLLMProvider)
    (reg : Registry.t (@Ctor Env)) model_opt kwargs start_time todo :
  readonly_registry reg ->
  forall error_history0 messages (w : @World Env) provider_stats,
    let r := try_providers self reg model_opt kwargs start_time todo
               error_history0 messages w provider_stats in
    cr_messages r = messages
    /\ Forall (sent_original_or_one_more messages) (cr_trace r).
Proof.
  intros Hreg.
  induction todo as [|name todo IH]; intros hist messages w stats.
  - split; [reflexivity | constructor].
  - cbn [try_providers].
    destruct (is_registered reg name); cbn [negb]; [|apply IH].
    destruct (try_provider_requests self reg name messages model_opt hist
                kwargs w Hreg) as [Hm Hf].
    assert (Hf' : Forall (sent_original_or_one_more messages)
                    (tr_trace (_try_provider self reg name messages model_opt
                                 hist kwargs w))).
    { eapply Forall_impl; [|exact Hf]. apply request_shape_one_more. }
    destruct (success _).
    + cbn [cr_messages cr_trace]. auto.
    + rewrite Hm.
      match goal with |- context [try_providers _ _ _ _ _ _ ?h ?m ?w' ?s] =>
        destruct (IH h m w' s) as [Hm' Hf''] end.
      cbn [with_call_trace cr_messages cr_trace]. split; [exact Hm'|].
      apply Forall_app. auto.
Qed.


Lemma fixtures_readonly :
  readonly_registry
    (Registry.register_all
       [("_test_fail", ctor_of fail_adapter);
        ("_test_flaky", ctor_of (flaky_adapter 3))]).
Proof.
  intros name ctor kwargs e a Hget Hcon.
  change (PyDict.get
            [("_test_fail", ctor_of fail_adapter);
             ("_test_flaky", ctor_of (flaky_adapter 3))] name = Some ctor)
    in Hget.
  cbn [PyDict.get] in Hget.
  destruct (String.eqb "_test_fail" name).
  - injection Hget as <-. injection Hcon as <-. intros m md kw e'. reflexivity.
  - destruct (String.eqb "_test_flaky" name); [|discriminate Hget].
    injection Hget as <-. injection Hcon as <-. intros m md kw e'.
    cbn. destruct (Nat.leb (e' + 1) 2); reflexivity.
Qed.


(** The first attempt is handed the caller's own list: an adapter that
    appends to its argument is seen by the caller. *)
Lemma mutating_adapter_reaches_caller :
  let self := mkProvider "mut" [] 1 1 30 in
  let reg := Registry.register_all [("mut", ctor_of mutating_adapter)] in
  cr_messages (call self reg None None (Some hello) None [] world0 [])
  = hello ++ [mkMessage "system" "be brief"].
Proof. reflexivity. Qed.

(* ------------------------------------------------------------------ *)
(** * Backoff *)

Section Backoff.
Context {Env : Type}.
Variables (self : UnifiedLLMProvider) (adapter : @LLMAdapter Env)
        (provider_name : string) (model_opt : option string)
        (global_errors : list ErrorRecord) (kwargs : Kwargs).

Lemma retry_loop_sleeps n :
forall a wait_time local_errors messages (w : @World Env) k d,
  nth_error
    (sleeps (tr_trace (retry_loop self adapter provider_name model_opt
                         global_errors kwargs (seq a n) wait_time
                         local_errors messages w))) k = Some d ->
  d = (wait_after self wait_time k
       + jitter_of (rand w) (rand_pos w + k) * wait_after self wait_time k)%Q.
Proof.
induction n as [|n IH]; intros a wait_time local_errors messages w k d.
- cbn. now rewrite nth_error_nil.
- cbn [seq retry_loop]. cbv zeta.
  destruct (attempt_outcome _) as [result|err ety].
  + cbn. now rewrite nth_error_nil.
  + destruct (Nat.ltb a (max_retries self - 1)).
    * unfold backoff, random_uniform. cbv zeta.
      cbn [with_trace tr_trace app sleeps].
      destruct k as [|k]; cbn [nth_error].
      -- intros [= <-]. cbn [wait_after elapse rand rand_pos].
         rewrite Nat.add_0_r. reflexivity.
      -- intros H. apply IH in H. rewrite H.
         cbn [wait_after time_sleep elapse rand rand_pos].
         replace (S (rand_pos w) + k) with (rand_pos w + S k) by lia.
         reflexivity.
    * cbn [with_trace tr_trace app sleeps]. intros H. apply IH in H.
      exact H.
Qed.

Lemma retry_loop_nonempty n a wait_time local_errors messages (w : @World Env) :
tr_trace (retry_loop self adapter provider_name model_opt global_errors
            kwargs (seq a (S n)) wait_time local_errors messages w) <> [].
Proof.
cbn [seq retry_loop]. cbv zeta.
destruct (attempt_outcome _); [discriminate|].
destruct (Nat.ltb a (max_retries self - 1)).
- unfold backoff, random_uniform. cbv zeta. discriminate.
- discriminate.
Qed.

Lemma retry_loop_ends_without_sleep n :
forall a wait_time local_errors messages (w : @World Env) evs d,
  a + n = max_retries self ->
  tr_trace (retry_loop self adapter provider_name model_opt global_errors
              kwargs (seq a n) wait_time local_errors messages w)
  <> evs ++ [EvSleep d].
Proof.
induction n as [|n IH]; intros a wait_time local_errors messages w evs d Hmax.
- cbn. apply app_cons_not_nil.
- cbn [seq retry_loop]. cbv zeta.
  destruct (attempt_outcome _) as [result|err ety].
  + cbn [tr_trace]. intros H.
    change ([?e] = evs ++ [EvSleep d]) with ([] ++ [e] = evs ++ [EvSleep d]) in H.
    apply app_inj_tail in H. destruct H as [_ H]. discriminate H.
  + destruct (Nat.ltb a (max_retries self - 1)) eqn:Hlt.
    * apply Nat.ltb_lt in Hlt. unfold backoff, random_uniform. cbv zeta.
      cbn [with_trace tr_trace app].
      destruct n as [|n]; [lia|].
      match goal with |- context [retry_loop _ _ _ _ _ _ _ ?wt ?l ?m ?w'] =>
        pose proof (retry_loop_nonempty n (S a) wt l m w') as Hne;
        pose proof (fun evs' => IH (S a) wt l m w' evs' d ltac:(lia)) as IH';
        set (rest := tr_trace (retry_loop self adapter provider_name
                       model_opt global_errors kwargs (seq (S a) (S n))
                       wt l m w')) in *
      end.
      intros H.
      destruct (exists_last Hne) as (rest' & x & Hrest).
      rewrite Hrest in H.
      change (?e1 :: ?e2 :: rest' ++ [x])
        with ((e1 :: e2 :: rest') ++ [x]) in H.
      apply app_inj_tail in H. destruct H as [_ ->].
      apply (IH' rest'). exact Hrest.
    * apply Nat.ltb_ge in Hlt. assert (n = 0) as -> by lia.
      cbn [seq retry_loop with_trace tr_trace app]. intros H.
      change ([?e] = evs ++ [EvSleep d]) with ([] ++ [e] = evs ++ [EvSleep d]) in H.
      apply app_inj_tail in H. destruct H as [_ H]. discriminate H.
Qed.

End Backoff.

Lemma wait_after_succ self wait_time k :
  wait_after self wait_time (S k)
  = Qmin (wait_after self wait_time k * 2)%Q (max_wait self).
Proof.
  revert wait_time. induction k as [|k IH]; intros wait_time; [reflexivity|].
  change (wait_after self wait_time (S (S k)))
    with (wait_after self (Qmin (wait_time * 2)%Q (max_wait self)) (S k)).
  rewrite IH. reflexivity.
Qed.

Lemma pow2_succ k : (pow2 (S k) == pow2 k * 2)%Q.
Proof.
  unfold pow2. rewrite Nat2Z.inj_succ, Z.pow_succ_r by lia.
  rewrite inject_Z_mult. ring.
Qed.

Lemma pow2_pos k : (0 < pow2 k)%Q.
Proof.
  unfold pow2. change 0%Q with (inject_Z 0). rewrite <- Zlt_Qlt.
  apply Z.pow_pos_nonneg; lia.
Qed.

Lemma Qmin_double x m :
  (0 <= m)%Q -> (Qmin (Qmin x m * 2) m == Qmin (x * 2) m)%Q.
Proof.
  intros Hm.
  destruct (Q.min_spec x m) as [[H1 E1]|[H1 E1]]; rewrite E1.
  - reflexivity.
  - rewrite (Q.min_r (m * 2) m) by lra.
    rewrite (Q.min_r (x * 2) m) by lra.
    reflexivity.
Qed.

Lemma wait_before_closed_form self k :
  (0 < initial_wait self)%Q -> (initial_wait self <= max_wait self)%Q ->
  (wait_before self k == Qmin (initial_wait self * pow2 k) (max_wait self))%Q.
Proof.
  intros Hpos Hle. unfold wait_before. induction k as [|k IH].
  - cbn [wait_after]. symmetry.
    assert (E : (initial_wait self * pow2 0 == initial_wait self)%Q)
      by (unfold pow2; cbn; ring).
    rewrite E. apply Q.min_l. exact Hle.
  - rewrite wait_after_succ, IH, Qmin_double by lra.
    rewrite pow2_succ.
    setoid_replace (initial_wait self * (pow2 k * 2))%Q
      with (initial_wait self * pow2 k * 2)%Q by ring.
    reflexivity.
Qed.

Lemma jitter_bounds rnd i :
  (0 <= rnd i)%Q -> (rnd i < 1)%Q ->
  ((1 # 10) <= jitter_of rnd i)%Q /\ (jitter_of rnd i < (3 # 10))%Q.
Proof. unfold jitter_of. intros H0 H1. split; lra. Qed.

Lemma get_adapter_rand {Env : Type} (reg : Registry.t (@Ctor Env)) name kwargs
    (w : @World Env) :
  rand (snd (get_adapter reg name kwargs w)) = rand w
  /\ rand_pos (snd (get_adapter reg name kwargs w)) = rand_pos w.
Proof.
  unfold get_adapter. destruct (Registry.get_adapter_ctor reg name); auto.
Qed.

Lemma failed_invocations_resolve name ok t :
  failed_invocations (EvResolve name ok :: t) = failed_invocations t.
Proof. reflexivity. Qed.




(* ------------------------------------------------------------------ *)
(** * Which errors a retry is told about *)

Lemma last3_app_long {A} (l g : list A) :
  3 <= length g -> last3 (l ++ g) = last3 g.
Proof.
  intros H. unfold last3. rewrite length_app.
  replace (length l + length g - 3) with (length l + (length g - 3)) by lia.
  rewrite skipn_app, skipn_all2 by lia.
  replace (length l + (length g - 3) - length l) with (length g - 3) by lia.
  reflexivity.
Qed.

(** Once three errors were carried over from earlier backends, a retry is
    told about those alone, whatever the current backend has failed with
    in the meantime. *)
Lemma error_context_ignores_local_errors messages local_errors global_errors :
  local_errors <> [] -> 3 <= length global_errors ->
  _add_error_context messages local_errors global_errors
  = NewObject (messages ++ [error_context_message (last3 global_errors)]).
Proof.
  intros Hl Hg. rewrite add_error_context_fresh by assumption.
  now rewrite last3_app_long.
Qed.

(** C2 at a failover.  The primary fails three times, then the fallback
    fails once with ["fail #1"]; the retry that follows is sent the
    original message and a summary of the three errors of the primary, in
    which the error just made, the latest of the four, does not appear. *)
Theorem error_context_after_failover :
  let self := mkProvider "_test_fail" ["_test_flaky"] 3 (1 # 100) 30 in
  let reg := Registry.register_all
               [("_test_fail", ctor_of fail_adapter);
                ("_test_flaky", ctor_of (flaky_adapter 3))] in
  let r := call self reg (Some "hello") None None None [] world0 [] in
  let summary :=
    join newline
      ["Previous attempts failed with the following errors:";
       "1. RuntimeError: always fails";
       "2. RuntimeError: always fails";
       "3. RuntimeError: always fails";
       "";
       "Please analyse these errors and provide a corrected response."] in
  failures_of (firstn 9 (cr_trace r))
  = [("_test_fail", 1); ("_test_fail", 2); ("_test_fail", 3);
     ("_test_flaky", 1)]
  /\ nth_error (cr_trace r) 7
     = Some (EvInvoke "_test_flaky" 0 hello ""
               (Raise (mkExn "RuntimeError" "fail #1")))
  /\ nth_error (cr_trace r) 9
     = Some (EvInvoke "_test_flaky" 1 (hello ++ [mkMessage "user" summary]) ""
               (Raise (mkExn "RuntimeError" "fail #2"))).
Proof.
  intros self reg r summary. repeat split.
Qed.

(* ------------------------------------------------------------------ *)
(** * When the statistics are updated *)

Lemma retry_loop_resolves_nothing {Env : Type} (self : UnifiedLLMProvider)
    (adapter : @LLMAdapter Env) name model_opt global_errors kwargs todo :
  forall wait_time local_errors messages (w : @World Env),
    resolved (tr_trace (retry_loop self adapter name model_opt global_errors
                          kwargs todo wait_time local_errors messages w))
    = [].
Proof.
  induction todo as [|a todo IH]; intros wait_time local_errors messages w;
    [reflexivity|].
  cbn [retry_loop]. cbv zeta.
  destruct (attempt_outcome _); [reflexivity|].
  destruct (Nat.ltb a (max_retries self - 1)).
  - unfold backoff, random_uniform. cbv zeta.
    cbn [with_trace tr_trace app resolved]. apply IH.
  - cbn [with_trace tr_trace app resolved]. apply IH.
Qed.

Lemma try_provider_resolves_once {Env : Type} (self : UnifiedLLMProvider)
    (reg : Registry.t (@Ctor Env)) name messages model_opt global_errors
    kwargs (w : @World Env) :
  resolved (tr_trace (_try_provider self reg name messages model_opt
                        global_errors kwargs w))
  = [name].
Proof.
  unfold _try_provider.
  destruct (get_adapter reg name [] w) as [[adapter|exc] w1]; [|reflexivity].
  cbn [with_trace tr_trace app resolved].
  now rewrite retry_loop_resolves_nothing.
Qed.

Lemma resolved_app t1 t2 : resolved (t1 ++ t2) = resolved t1 ++ resolved t2.
Proof.
  induction t1 as [|[] t1 IH]; simpl; auto. now rewrite IH.
Qed.

(** [call] updates the statistics once for every backend it tried to
    construct, in the order it tried them, and for no other. *)
Lemma call_updates_stats_once_per_backend {Env : Type}
    (self : UnifiedLLMProvider) (reg : Registry.t (@Ctor Env))
    model_opt kwargs start_time todo :
  forall error_history0 messages (w : @World Env) provider_stats,
    let r := try_providers self reg model_opt kwargs start_time todo
               error_history0 messages w provider_stats in
    exists updates,
      cr_stats r = fold_left apply_update updates provider_stats
      /\ map (fun u => fst (fst u)) updates = resolved (cr_trace r).
Proof.
  induction todo as [|name todo IH]; intros hist messages w stats.
  - exists []. split; reflexivity.
  - cbn [try_providers].
    destruct (is_registered reg name); cbn [negb]; [|apply IH].
    pose proof (try_provider_resolves_once self reg name messages model_opt
                  hist kwargs w) as Hres.
    destruct (success _).
    + eexists [(name, true, _)]. cbn [cr_stats cr_trace]. rewrite Hres.
      split; reflexivity.
    + continue_with IH rest. destruct IH as (updates & Hstats & Hnames).
      eexists ((name, false, _) :: updates).
      cbn [with_call_trace cr_stats cr_trace].
      rewrite resolved_app, Hres, Hstats, <- Hnames. split; reflexivity.
Qed.

(* ================================================================== *)
(** * Further properties of the registry *)



Lemma sorted_snoc l x : sorted (l ++ [x]) = insert_sorted x (sorted l).
Proof. unfold sorted. now rewrite fold_left_app. Qed.

Lemma insert_sorted_In x y l : In y (insert_sorted x l) <-> y = x \/ In y l.
Proof.
  split.
  - intros H. apply (Permutation_in _ (Permutation_sym (insert_sorted_perm x l)))
      in H. destruct H; auto.
  - intros H. apply (Permutation_in _ (insert_sorted_perm x l)).
    destruct H; [left | right]; auto.
Qed.

(** Registering a name that is already registered leaves [list_adapters]
    as it was; registering a new name puts it into the listing at its place
    in the order, so the listing grows by that one name. *)
Theorem list_adapters_after_register {C : Type} (r : Registry.t C)
    (name : string) (c : C) :
  Registry.list_adapters (Registry.register_adapter r name c)
  = (if PyDict.contains r name
     then Registry.list_adapters r
     else insert_sorted name (Registry.list_adapters r))
  /\ (forall n,
        In n (Registry.list_adapters (Registry.register_adapter r name c))
        <-> n = name \/ In n (Registry.list_adapters r))
  /\ length (Registry.list_adapters (Registry.register_adapter r name c))
     = (if PyDict.contains r name
        then length (Registry.list_adapters r)
        else S (length (Registry.list_adapters r))).
Proof.
  assert (Heq : Registry.list_adapters (Registry.register_adapter r name c)
                = if PyDict.contains r name
                  then Registry.list_adapters r
                  else insert_sorted name (Registry.list_adapters r)).
  { unfold Registry.list_adapters, Registry.register_adapter.
    rewrite keys_set. destruct (PyDict.contains r name); auto.
    apply sorted_snoc. }
  split; [exact Heq|]. split.
  - intros n. rewrite Heq. destruct (PyDict.contains r name) eqn:E.
    + apply contains_In in E. rewrite <- list_adapters_In in E.
      split; [auto | intros [->|H]; auto].
    + apply insert_sorted_In.
  - rewrite Heq. destruct (PyDict.contains r name); auto.
    symmetry. apply (Permutation_length (insert_sorted_perm name _)).
Qed.

(* ================================================================== *)
(** * Further properties of the statistics *)

Lemma Q_of_nat_le m n : (m <= n)%nat -> (Q_of_nat m <= Q_of_nat n)%Q.
Proof. intros H. unfold Q_of_nat. rewrite <- Zle_Qle. lia. Qed.

Lemma success_rate_bounds (s : ProviderStats) :
  (0 <= success_rate (stats_view s))%Q /\ (success_rate (stats_view s) <= 1)%Q.
Proof.
  unfold stats_view. cbn [success_rate].
  set (m := Nat.max (successes s + failures s) 1).
  assert (Hm : (0 < Q_of_nat m)%Q) by (apply Q_of_nat_pos; lia).
  assert (Hs : (Q_of_nat (successes s) <= Q_of_nat m)%Q)
    by (apply Q_of_nat_le; lia).
  assert (H0 : (0 <= Q_of_nat (successes s))%Q)
    by (change 0%Q with (Q_of_nat 0); apply Q_of_nat_le; lia).
  split.
  - apply Qle_shift_div_l; [exact Hm|]. lra.
  - apply Qle_shift_div_r; [exact Hm|]. lra.
Qed.

(** [get_provider_stats] reports the backends of the table in the order of
    the table, with the stored counters and average unchanged and a success
    rate between 0 and 1; the rate is 0 for a row without successes and 1
    for a row with successes and no failure. *)
Theorem provider_stats_view_sound (provider_stats : PyDict.t ProviderStats) :
  PyDict.keys (get_provider_stats provider_stats) = PyDict.keys provider_stats
  /\ forall name v,
       PyDict.get (get_provider_stats provider_stats) name = Some v ->
       exists s,
         PyDict.get provider_stats name = Some s
         /\ view_successes v = successes s
         /\ view_failures v = failures s
         /\ view_avg_time v = avg_time s
         /\ (0 <= success_rate v)%Q /\ (success_rate v <= 1)%Q
         /\ (successes s = 0 -> (success_rate v == 0)%Q)
         /\ (0 < successes s -> failures s = 0 -> (success_rate v == 1)%Q).
Proof.
  split.
  - unfold get_provider_stats, PyDict.keys. rewrite map_map. reflexivity.
  - induction provider_stats as [|[k s] d IH]; intros name v; cbn.
    + discriminate.
    + destruct (String.eqb k name); [|apply IH].
      intros [= <-]. exists s. split; [reflexivity|].
      destruct (success_rate_bounds s) as [H0 H1].
      repeat split; auto.
      * intros Hz. unfold stats_view. cbn [success_rate]. rewrite Hz.
        unfold Qdiv. change (Q_of_nat 0) with 0%Q. ring.
      * intros Hpos Hf. unfold stats_view. cbn [success_rate].
        rewrite Hf, Nat.add_0_r, Nat.max_l by lia.
        apply Qmult_inv_r.
        assert (0 < Q_of_nat (successes s))%Q by now apply Q_of_nat_pos.
        lra.
Qed.

Lemma provider_stats_view_sound_witness :
  let stats := _update_stats
                 (_update_stats ([] : PyDict.t ProviderStats) "openai" true
                    2%Q)
                 "openai" false 4%Q in
  exists v,
    PyDict.get (get_provider_stats stats) "openai" = Some v
    /\ view_successes v = 1 /\ view_failures v = 1
    /\ (success_rate v <= 1)%Q.
Proof.
  intros stats.
  destruct (PyDict.get (get_provider_stats stats) "openai") as [v|] eqn:Hv;
    [|discriminate Hv].
  exists v. split; [reflexivity|].
  destruct (proj2 (provider_stats_view_sound stats) "openai" v Hv)
    as (s & Hs & H1 & H2 & _ & _ & Hle & _).
  injection Hs as <-. repeat split; assumption.
Defined.

Lemma update_stats_get_same (provider_stats : PyDict.t ProviderStats)
    (name : string) (ok : bool) (elapsed : Q) :
  let old := match PyDict.get provider_stats name with
             | Some s => s
             | None => mkProviderStats 0 0 0%Q
             end in
  let s' := successes old + (if ok then 1 else 0) in
  let f' := failures old + (if ok then 0 else 1) in
  PyDict.get (_update_stats provider_stats name ok elapsed) name
  = Some (mkProviderStats s' f'
            ((avg_time old * Q_of_nat (s' + f' - 1) + elapsed)
             / Q_of_nat (s' + f'))%Q).
Proof.
  unfold _update_stats.
  destruct (PyDict.contains provider_stats name) eqn:Hc; cbn [negb].
  - unfold PyDict.contains in Hc.
    destruct (PyDict.get provider_stats name) as [s|]; [|discriminate].
    rewrite get_set_same. destruct ok; cbn; rewrite ?Nat.add_0_r; reflexivity.
  - rewrite get_set_same.
    unfold PyDict.contains in Hc.
    destruct (PyDict.get provider_stats name) as [s|]; [discriminate|].
    rewrite get_set_same. destruct ok; reflexivity.
Qed.

Lemma update_stats_get_other provider_stats name other ok elapsed :
  other <> name ->
  PyDict.get (_update_stats provider_stats name ok elapsed) other
  = PyDict.get provider_stats other.
Proof.
  intros Hne. unfold _update_stats.
  destruct (PyDict.contains provider_stats name); cbn [negb].
  - destruct (PyDict.get provider_stats name); auto.
    now apply get_set_other.
  - rewrite get_set_same. now rewrite !get_set_other.
Qed.

Lemma updates_of_app name l1 l2 :
  updates_of name (l1 ++ l2) = updates_of name l1 ++ updates_of name l2.
Proof. apply filter_app. Qed.

Lemma sum_elapsed_app l1 l2 :
  (sum_elapsed (l1 ++ l2) == sum_elapsed l1 + sum_elapsed l2)%Q.
Proof.
  induction l1 as [|u l1 IH]; cbn [app sum_elapsed]; [ring|].
  rewrite IH. ring.
Qed.


(* ================================================================== *)
(** * Further properties of the orchestrator *)

(** The candidate list begins with the effective primary and holds it
    once; every other name is in it as often as it is among the configured
    fallbacks, so a fallback listed twice is a candidate twice. *)
Theorem providers_to_try_multiplicity (self : UnifiedLLMProvider)
    (provider_opt : option string) (n : string) :
  let primary := str_or provider_opt (primary_provider self) in
  hd_error (providers_to_try self provider_opt) = Some primary
  /\ count_occ string_dec (providers_to_try self provider_opt) primary = 1
  /\ (n <> primary ->
      count_occ string_dec (providers_to_try self provider_opt) n
      = count_occ string_dec (fallback_providers self) n).
Proof.
  intros primary. unfold providers_to_try. fold primary.
  cbn [app hd_error count_occ].
  assert (Hcount : forall l m,
             count_occ string_dec
               (filter (fun p => negb (String.eqb p primary)) l) m
             = if String.eqb m primary then 0 else count_occ string_dec l m).
  { induction l as [|x l IH]; intros m; cbn [filter count_occ].
    - now destruct (String.eqb m primary).
    - destruct (String.eqb_spec x primary) as [->|Hx]; cbn [negb count_occ].
      + rewrite IH. destruct (String.eqb_spec m primary) as [->|Hm]; auto.
        destruct (string_dec primary m); congruence.
      + rewrite IH. destruct (String.eqb_spec m primary) as [->|Hm]; auto.
        destruct (string_dec x primary); congruence. }
  split; [reflexivity|]. split.
  - destruct (string_dec primary primary); [|congruence].
    rewrite Hcount, String.eqb_refl. reflexivity.
  - intros Hne. destruct (string_dec primary n); [congruence|].
    rewrite Hcount. destruct (String.eqb_spec n primary); congruence.
Qed.

Lemma providers_to_try_multiplicity_witness :
  let self := mkProvider "a" ["b"; "a"; "b"; "c"] 3 1 30 in
  providers_to_try self None = ["a"; "b"; "b"; "c"]
  /\ count_occ string_dec (providers_to_try self None) "b" = 2.
Proof.
  intros self. split; [reflexivity|].
  assert (Hne : "b" <> str_or None (primary_provider self)) by discriminate.
  rewrite (proj2 (proj2 (providers_to_try_multiplicity self None "b")) Hne).
  reflexivity.
Defined.

Lemma last3_suffix {A} (l : list A) : exists older, l = older ++ last3 l.
Proof.
  exists (firstn (length l - 3) l). unfold last3.
  symmetry. apply firstn_skipn.
Qed.

(** [_add_error_context] returns the list it was given, the same object,
    exactly when there is no error at all, local or carried over.
    Otherwise it returns a new list: the given messages, in order, then one
    message of role ["user"] rendering the last three (or fewer, if there
    are fewer) of the local errors followed by the carried-over ones. *)
Theorem add_error_context_cases (original_messages : list Message)
    (local_errors global_errors : list ErrorRecord) :
  let errors := local_errors ++ global_errors in
  let recent := last3 errors in
  _add_error_context original_messages local_errors global_errors
  = match errors with
    | [] => SameObject
    | _ => NewObject (original_messages ++ [error_context_message recent])
    end
  /\ length recent = Nat.min 3 (length errors)
  /\ (exists older, errors = older ++ recent)
  /\ msg_role (error_context_message recent) = "user".
Proof.
  intros errors recent. split; [|split; [|split]].
  - unfold _add_error_context. fold errors. fold recent.
    destruct errors as [|e errors'] eqn:E; [reflexivity|].
    destruct recent eqn:R; [|reflexivity].
    exfalso. apply (f_equal (@length _)) in R.
    subst recent. rewrite last3_length in R. cbn in R. lia.
  - apply last3_length.
  - apply last3_suffix.
  - reflexivity.
Qed.

(** When the class or factory of a backend raises, [_try_provider] invokes
    nothing and sleeps never: it returns a failed response whose history is
    the one record of attempt 0 with the type and the text of the
    exception, and leaves the caller's messages alone. *)
Theorem try_provider_construction_failure {Env : Type}
    (self : UnifiedLLMProvider) (reg : Registry.t (@Ctor Env))
    (provider_name : string) (messages : list Message)
    (model_opt : option string) (global_errors : list ErrorRecord)
    (kwargs : Kwargs) (w : @World Env) (exc : Exn) :
  fst (get_adapter reg provider_name [] w) = Raise exc ->
  let r := _try_provider self reg provider_name messages model_opt
             global_errors kwargs w in
  tr_trace r = [EvResolve provider_name false]
  /\ success (tr_response r) = false
  /\ provider (tr_response r) = provider_name
  /\ map record_details (list_or_empty (error_history (tr_response r)))
     = [(provider_name, 0, exn_msg exc, exn_type exc)]
  /\ tr_messages r = messages
  /\ tr_world r = snd (get_adapter reg provider_name [] w).
Proof.
  intros Hget r. subst r. unfold _try_provider.
  destruct (get_adapter reg provider_name [] w) as [[adapter|exc'] w1];
    cbn [fst] in Hget; [discriminate|].
  injection Hget as ->. repeat split.
Qed.

Lemma try_provider_construction_failure_witness :
  let self := mkProvider "broken" [] 3 1 30 in
  let reg := Registry.register_all [("broken", broken_ctor)] in
  let r := _try_provider self reg "broken" hello None [] [] world0 in
  tr_trace r = [EvResolve "broken" false]
  /\ map record_details (list_or_empty (error_history (tr_response r)))
     = [("broken", 0, "no sdk", "ImportError")].
Proof.
  intros self reg r.
  destruct (try_provider_construction_failure self reg "broken" hello None []
              [] world0 (mkExn "ImportError" "no sdk") eq_refl)
    as (H1 & _ & _ & H2 & _).
  split; assumption.
Defined.

Lemma failure_details_app t1 t2 :
  failure_details (t1 ++ t2) = failure_details t1 ++ failure_details t2.
Proof.
  induction t1 as [|[n ok | n i rq m o | d] t1 IH]; cbn [app failure_details];
    auto.
  destruct (attempt_outcome o); cbn [app]; now rewrite IH.
Qed.

Lemma retry_loop_records {Env : Type} (self : UnifiedLLMProvider)
    (adapter : @LLMAdapter Env) name model_opt global_errors kwargs todo :
  forall wait_time local_errors messages (w : @World Env),
    let r := retry_loop self adapter name model_opt global_errors kwargs todo
               wait_time local_errors messages w in
    exists new,
      list_or_empty (error_history (tr_response r)) = local_errors ++ new
      /\ map record_details new = failure_details (tr_trace r).
Proof.
  induction todo as [|a todo IH]; intros wait_time local_errors messages w.
  - exists []. cbn. now rewrite app_nil_r.
  - cbn [retry_loop]. cbv zeta.
    destruct (attempt_outcome (inv_outcome _)) as [result|err ety] eqn:Hout.
    + exists []. cbn [tr_response tr_trace error_history failure_details].
      rewrite Hout, list_or_empty_or_None, app_nil_r. split; reflexivity.
    + match goal with |- context [mkErrorRecord ?p ?i ?e ?t ?ts] =>
        set (rec1 := mkErrorRecord p i e t ts) end.
      destruct (Nat.ltb a (max_retries self - 1)).
      * unfold backoff, random_uniform. cbv zeta.
        match goal with |- context [retry_loop _ _ _ _ _ _ _ ?wt ?l ?m ?w'] =>
          destruct (IH wt l m w') as (new & Hh & Hd) end.
        exists (rec1 :: new).
        cbn [with_trace tr_response tr_trace app failure_details].
        rewrite Hout, Hh, <- app_assoc. cbn [map]. rewrite Hd.
        split; reflexivity.
      * match goal with |- context [retry_loop _ _ _ _ _ _ _ ?wt ?l ?m ?w'] =>
          destruct (IH wt l m w') as (new & Hh & Hd) end.
        exists (rec1 :: new).
        cbn [with_trace tr_response tr_trace app failure_details].
        rewrite Hout, Hh, <- app_assoc. cbn [map]. rewrite Hd.
        split; reflexivity.
Qed.

(** When the backend could be constructed, the history of the response of
    [_try_provider] has one record per failed invocation, in order, with
    the attempt number counted from 1; a raised exception is recorded with
    its type and text, a returned failure as ["AdapterFailure"] with the
    ["error"] entry of the last error dict of the adapter's response, or
    ["unknown"] when there is none. *)
Theorem try_provider_records_failures {Env : Type}
    (self : UnifiedLLMProvider) (reg : Registry.t (@Ctor Env))
    (provider_name : string) (messages : list Message)
    (model_opt : option string) (global_errors : list ErrorRecord)
    (kwargs : Kwargs) (w : @World Env) (adapter : @LLMAdapter Env) :
  fst (get_adapter reg provider_name [] w) = Return adapter ->
  let r := _try_provider self reg provider_name messages model_opt
             global_errors kwargs w in
  map record_details (list_or_empty (error_history (tr_response r)))
  = failure_details (tr_trace r)
  /\ (forall result,
        success result = false ->
        attempt_outcome (Return result)
        = Failed (match error_history result with
                  | Some (x :: xs) =>
                      match last (x :: xs) None with
                      | Some e => e
                      | None => "unknown"
                      end
                  | _ => "unknown"
                  end) "AdapterFailure")
  /\ (forall exc,
        attempt_outcome (Raise exc) = Failed (exn_msg exc) (exn_type exc)).
Proof.
  intros Hget r. split; [|split].
  - subst r. unfold _try_provider.
    destruct (get_adapter reg provider_name [] w) as [[adapter'|exc] w1];
      cbn [fst] in Hget; [|discriminate].
    destruct (retry_loop_records self adapter' provider_name model_opt
                global_errors kwargs (seq 0 (max_retries self))
                (initial_wait self) [] messages w1) as (new & Hh & Hd).
    cbn [with_trace tr_response tr_trace app failure_details].
    rewrite Hh. exact Hd.
  - intros result Hs. cbn [attempt_outcome]. rewrite Hs.
    unfold last_adapter_error.
    destruct (error_history result) as [[|x xs]|]; reflexivity.
  - reflexivity.
Qed.

Lemma try_provider_records_failures_witness :
  let self := mkProvider "soft" [] 2 (1 # 100) 30 in
  let reg := Registry.register_all [("soft", ctor_of soft_fail_adapter)] in
  let r := _try_provider self reg "soft" hello None [] [] world0 in
  map record_details (list_or_empty (error_history (tr_response r)))
  = [("soft", 1, "timeout", "AdapterFailure");
     ("soft", 2, "timeout", "AdapterFailure")].
Proof.
  intros self reg r. subst r.
  rewrite (proj1 (try_provider_records_failures self reg "soft" hello None []
                    [] world0 soft_fail_adapter eq_refl)).
  reflexivity.
Defined.

(* ================================================================== *)
(** * How much a call does *)

Lemma repeat_false_app m n : repeat false m ++ repeat false n = repeat false (m + n).
Proof. symmetry. apply repeat_app. Qed.

Lemma invoke_results_resolve name ok t :
  invoke_results (EvResolve name ok :: t) = invoke_results t.
Proof. reflexivity. Qed.

Lemma invoke_results_success name k request m reply :
  success reply = true ->
  invoke_results [EvInvoke name k request m (Return reply)] = [true].
Proof. intros H. unfold invoke_results. cbn. now rewrite H. Qed.

Section Effort.
Context {Env : Type}.
Variables (self : UnifiedLLMProvider) (reg : Registry.t (@Ctor Env))
          (model_opt : option string) (kwargs : Kwargs).

Lemma try_provider_effort name messages global_errors (w : @World Env) :
  let r := _try_provider self reg name messages model_opt global_errors
             kwargs w in
  exists m,
    length (sleeps (tr_trace r)) <= max_retries self - 1
    /\ ((success (tr_response r) = false
         /\ invoke_results (tr_trace r) = repeat false m
         /\ m <= max_retries self)
        \/ (success (tr_response r) = true
            /\ invoke_results (tr_trace r) = repeat false m ++ [true]
            /\ m < max_retries self)).
Proof.
  destruct (try_provider_cases self reg model_opt kwargs name messages
              global_errors w)
    as [(exc & w1 & _ & Htr & Hresp)
       |(r0 & Htr & Hresp & [(k & Hk & Hok)|Hex])]; cbv zeta;
    rewrite Htr, Hresp.
  - exists 0. split; [cbn; lia|]. left. repeat split. lia.
  - destruct Hok as (new & reply & req & evs & Hs & Ht & Hres & _ & Hsl & _ & Hr).
    exists k. rewrite invoke_results_resolve, Ht, Hr. cbn [sleeps success].
    rewrite sleeps_app, invoke_results_app, Hres, length_app, Hsl.
    rewrite (invoke_results_success _ _ _ _ _ Hs).
    split; [cbn; lia|]. right. auto.
  - destruct Hex as (new & Hres & _ & Hsl & _ & Hr).
    exists (max_retries self). rewrite invoke_results_resolve, Hres, Hr.
    cbn [sleeps success new_response]. split; [lia|]. left. auto.
Qed.

Lemma try_providers_effort start_time todo :
  forall error_history0 messages (w : @World Env) provider_stats,
    let r := try_providers self reg model_opt kwargs start_time todo
               error_history0 messages w provider_stats in
    exists m tail,
      invoke_results (cr_trace r) = repeat false m ++ tail
      /\ (tail = [] \/ tail = [true])
      /\ m + length tail <= max_retries self * length todo
      /\ length (sleeps (cr_trace r)) <= (max_retries self - 1) * length todo.
Proof.
  induction todo as [|name todo IH]; intros hist messages w stats.
  - exists 0, []. cbn. repeat split; auto; lia.
  - cbn [try_providers length]. rewrite !Nat.mul_succ_r.
    set (bound_invocations := max_retries self * length todo) in *.
    set (bound_sleeps := (max_retries self - 1) * length todo) in *.
    clearbody bound_invocations bound_sleeps.
    destruct (is_registered reg name); cbn [negb].
    + destruct (try_provider_effort name messages hist w)
        as (m1 & Hsl1 & [(Hs & Hres & Hm)|(Hs & Hres & Hm)]);
        cbv zeta in Hs, Hres, Hsl1; rewrite Hs.
      * continue_with IH rest.
        destruct IH as (m & tail & Hr & Ht & Hb & Hsl).
        exists (m1 + m), tail.
        cbn [with_call_trace cr_trace].
        rewrite invoke_results_app, sleeps_app, length_app, Hres, Hr.
        rewrite app_assoc, repeat_false_app.
        repeat split; auto; lia.
      * exists m1, [true]. cbn [cr_trace length].
        split; [exact Hres|]. split; [now right|]. split; lia.
    + destruct (IH hist messages w stats) as (m & tail & Hr & Ht & Hb & Hsl).
      exists m, tail. repeat split; auto; lia.
Qed.

End Effort.

(** [call] invokes backends at most [max_retries] times per candidate and
    sleeps at most [max_retries - 1] times per candidate; a successful
    invocation is the last one of the call, every invocation before it
    failed. *)
Theorem call_effort_bounded {Env : Type}
    (self : UnifiedLLMProvider) (reg : Registry.t (@Ctor Env))
    (prompt model_opt : option string) (messages : option (list Message))
    (provider_opt : option string) (kwargs : Kwargs) (w : @World Env)
    (provider_stats : PyDict.t ProviderStats) :
  let r := call self reg prompt model_opt messages provider_opt kwargs w
             provider_stats in
  let candidates := length (providers_to_try self provider_opt) in
  (exists m tail,
      invoke_results (cr_trace r) = repeat false m ++ tail
      /\ (tail = [] \/ tail = [true]))
  /\ length (invoke_results (cr_trace r)) <= max_retries self * candidates
  /\ length (sleeps (cr_trace r)) <= (max_retries self - 1) * candidates.
Proof.
  intros r candidates.
  assert (H : exists m tail,
             invoke_results (cr_trace r) = repeat false m ++ tail
             /\ (tail = [] \/ tail = [true])
             /\ m + length tail <= max_retries self * candidates
             /\ length (sleeps (cr_trace r))
                <= (max_retries self - 1) * candidates).
  { subst r. unfold call.
    destruct messages as [ms|], prompt as [p|];
      try apply try_providers_effort.
    exists 0, []. cbn. repeat split; auto; apply Nat.le_0_l. }
  destruct H as (m & tail & Hr & Ht & Hb & Hsl).
  split; [eauto|]. split; [|exact Hsl].
  rewrite Hr, length_app, repeat_length. exact Hb.
Qed.

(* ================================================================== *)
(** * Which rows a call updates *)

Lemma fold_updates_get_other updates :
  forall (stats : PyDict.t ProviderStats) n,
    ~ In n (map (fun u : string * bool * Q => fst (fst u)) updates) ->
    PyDict.get (fold_left apply_update updates stats) n = PyDict.get stats n.
Proof.
  induction updates as [|u updates IH]; intros stats n Hn; [reflexivity|].
  cbn [fold_left]. rewrite IH by (intros H; apply Hn; now right).
  unfold apply_update. apply update_stats_get_other.
  intros ->. apply Hn. now left.
Qed.

Lemma try_providers_updates {Env : Type} (self : UnifiedLLMProvider)
    (reg : Registry.t (@Ctor Env)) model_opt kwargs start_time todo :
  forall error_history0 messages (w : @World Env) provider_stats,
    let r := try_providers self reg model_opt kwargs start_time todo
               error_history0 messages w provider_stats in
    exists updates resp,
      cr_result r = Return resp
      /\ cr_stats r = fold_left apply_update updates provider_stats
      /\ map (fun u => fst (fst u)) updates = resolved (cr_trace r)
      /\ map update_ok updates
         = (if success resp
            then repeat false (length updates - 1) ++ [true]
            else repeat false (length updates)).
Proof.
  induction todo as [|name todo IH]; intros hist messages w stats.
  - exists [], (new_response "" false "all_failed" (str_or model_opt "unknown")
                  (length hist) (time_time w - start_time)%Q (Some hist)).
    repeat split.
  - cbn [try_providers].
    destruct (is_registered reg name); cbn [negb]; [|apply IH].
    pose proof (try_provider_resolves_once self reg name messages model_opt
                  hist kwargs w) as Hres.
    destruct (success (tr_response _)) eqn:Hs.
    + eexists [(name, true, _)], _. cbn [cr_result cr_stats cr_trace].
      rewrite Hres. split; [reflexivity|]. cbn [success].
      repeat split.
    + continue_with IH rest.
      destruct IH as (updates & resp & Hret & Hstats & Hnames & Hflags).
      eexists ((name, false, _) :: updates), resp.
      cbn [with_call_trace cr_result cr_stats cr_trace].
      rewrite resolved_app, Hres, Hstats, <- Hnames.
      split; [exact Hret|]. split; [reflexivity|]. split; [reflexivity|].
      cbn [map update_ok fst snd length]. rewrite Hflags.
      destruct (success resp); [|reflexivity].
      destruct updates as [|u updates]; [discriminate Hflags|].
      cbn [length Nat.sub repeat app]. rewrite ?Nat.sub_0_r. reflexivity.
Qed.



(* ================================================================== *)
(** * How long a call sleeps *)

Lemma wait_after_bounds self wait_time k :
  (0 <= wait_time)%Q -> (0 <= max_wait self)%Q ->
  (0 <= wait_after self wait_time k)%Q
  /\ (wait_after self wait_time k <= Qmax wait_time (max_wait self))%Q.
Proof.
  revert wait_time. induction k as [|k IH]; intros wait_time Hw Hm.
  - cbn [wait_after]. split; [exact Hw | apply Q.le_max_l].
  - cbn [wait_after].
    assert (Hmin : (0 <= Qmin (wait_time * 2) (max_wait self))%Q)
      by (apply Q.min_glb; lra).
    destruct (IH _ Hmin Hm) as [H0 H1]. split; [exact H0|].
    eapply Qle_trans; [exact H1|].
    apply Q.max_lub; [|apply Q.le_max_r].
    eapply Qle_trans; [apply Q.le_min_r | apply Q.le_max_r].
Qed.

(** The bound on one sleep: the larger of the two configured waits, with
    the largest jitter. *)
Lemma sleep_within_bound self wait_time k j :
  (0 <= wait_time)%Q -> (wait_time <= Qmax (initial_wait self) (max_wait self))%Q ->
  (0 <= max_wait self)%Q ->
  ((1 # 10) <= j)%Q -> (j < (3 # 10))%Q ->
  let d := (wait_after self wait_time k + j * wait_after self wait_time k)%Q in
  (0 <= d)%Q
  /\ (d <= (13 # 10) * Qmax (initial_wait self) (max_wait self))%Q.
Proof.
  intros Hw Hb Hm Hj0 Hj1 d.
  destruct (wait_after_bounds self wait_time k Hw Hm) as [H0 H1].
  assert (H2 : (wait_after self wait_time k
                <= Qmax (initial_wait self) (max_wait self))%Q).
  { eapply Qle_trans; [exact H1|].
    apply Q.max_lub; [exact Hb | apply Q.le_max_r]. }
  subst d.
  set (x := wait_after self wait_time k) in *.
  set (b := Qmax (initial_wait self) (max_wait self)) in *.
  split; nra.
Qed.

Section SleepBound.
Context {Env : Type}.
Variables (self : UnifiedLLMProvider) (reg : Registry.t (@Ctor Env))
          (model_opt : option string) (kwargs : Kwargs).
Hypothesis initial_wait_nonneg : (0 <= initial_wait self)%Q.
Hypothesis max_wait_nonneg : (0 <= max_wait self)%Q.

Lemma retry_loop_rand (adapter : @LLMAdapter Env) name global_errors todo :
  forall wait_time local_errors messages (w : @World Env),
    rand (tr_world (retry_loop self adapter name model_opt global_errors
                      kwargs todo wait_time local_errors messages w))
    = rand w.
Proof.
  induction todo as [|a todo IH]; intros wait_time local_errors messages w;
    [reflexivity|].
  cbn [retry_loop]. cbv zeta.
  destruct (attempt_outcome _); [reflexivity|].
  destruct (Nat.ltb a (max_retries self - 1)).
  - unfold backoff, random_uniform. cbv zeta.
    cbn [with_trace tr_world]. now rewrite IH.
  - cbn [with_trace tr_world]. now rewrite IH.
Qed.

Lemma try_provider_sleeps_ok name messages global_errors (w : @World Env) :
  (forall i, (0 <= rand w i)%Q /\ (rand w i < 1)%Q) ->
  let r := _try_provider self reg name messages model_opt global_errors
             kwargs w in
  rand (tr_world r) = rand w
  /\ Forall (sleep_ok self) (sleeps (tr_trace r)).
Proof.
  intros Hrand. unfold _try_provider.
  pose proof (get_adapter_rand reg name [] w) as [Hr Hp].
  destruct (get_adapter reg name [] w) as [[adapter|exc] w1];
    cbn [snd] in Hr, Hp.
  - cbn [with_trace tr_world tr_trace app sleeps]. split.
    + now rewrite retry_loop_rand.
    + apply Forall_forall. intros d Hd.
      apply In_nth_error in Hd. destruct Hd as [k Hk].
      apply retry_loop_sleeps in Hk. rewrite Hk, Hr.
      destruct (jitter_bounds (rand w) (rand_pos w1 + k)) as [Hlo Hhi];
        try apply Hrand.
      apply sleep_within_bound; auto. apply Q.le_max_l.
  - split; [exact Hr | constructor].
Qed.

Lemma try_providers_sleeps_ok start_time todo :
  forall error_history0 messages (w : @World Env) provider_stats,
    (forall i, (0 <= rand w i)%Q /\ (rand w i < 1)%Q) ->
    Forall (sleep_ok self)
      (sleeps (cr_trace (try_providers self reg model_opt kwargs start_time
                           todo error_history0 messages w provider_stats))).
Proof.
  induction todo as [|name todo IH]; intros hist messages w stats Hrand.
  - constructor.
  - cbn [try_providers].
    destruct (is_registered reg name); cbn [negb]; [|now apply IH].
    destruct (try_provider_sleeps_ok name messages hist w Hrand) as [Hr Hf].
    destruct (success _).
    + exact Hf.
    + cbn [with_call_trace cr_trace]. rewrite sleeps_app.
      apply Forall_app. split; [exact Hf|].
      apply IH. now rewrite Hr.
Qed.

End SleepBound.

(** With non-negative configured waits and [random()] in [[0, 1)], every
    sleep of a call lasts at least 0 and at most 1.3 times the larger of
    [initial_wait] and [max_wait]; so the whole call sleeps at most
    [(max_retries - 1)] times that per candidate, and [time.sleep] is never
    handed a negative duration. *)
Theorem call_sleeps_bounded {Env : Type}
    (self : UnifiedLLMProvider) (reg : Registry.t (@Ctor Env))
    (prompt model_opt : option string) (messages : option (list Message))
    (provider_opt : option string) (kwargs : Kwargs) (w : @World Env)
    (provider_stats : PyDict.t ProviderStats) :
  (0 <= initial_wait self)%Q ->
  (0 <= max_wait self)%Q ->
  (forall i, (0 <= rand w i)%Q /\ (rand w i < 1)%Q) ->
  let r := call self reg prompt model_opt messages provider_opt kwargs w
             provider_stats in
  Forall (fun d =>
            (0 <= d)%Q
            /\ (d <= (13 # 10) * Qmax (initial_wait self) (max_wait self))%Q)
    (sleeps (cr_trace r)).
Proof.
  intros Hi Hm Hrand r. subst r. unfold call.
  destruct messages as [ms|], prompt as [p|];
    try (apply (try_providers_sleeps_ok self reg model_opt kwargs Hi Hm);
         exact Hrand).
  constructor.
Qed.

Lemma call_sleeps_bounded_witness :
  let self := mkProvider "_test_fail" [] 4 1 3 in
  let reg := Registry.register_all [("_test_fail", ctor_of fail_adapter)] in
  let r := call self reg (Some "hello") None None None [] world0 [] in
  length (sleeps (cr_trace r)) = 3
  /\ Forall (fun d => (d <= (39 # 10))%Q) (sleeps (cr_trace r)).
Proof.
  intros self reg r. split; [reflexivity|].
  assert (Hi : (0 <= initial_wait self)%Q) by (vm_compute; congruence).
  assert (Hm : (0 <= max_wait self)%Q) by (vm_compute; congruence).
  assert (Hrand : forall i : nat,
             (0 <= rand world0 i)%Q /\ (rand world0 i < 1)%Q)
    by (intros i; split; vm_compute; congruence).
  pose proof (call_sleeps_bounded self reg (Some "hello") None None None []
                world0 [] Hi Hm Hrand) as H.
  eapply Forall_impl; [|exact H].
  intros d [_ Hd]. eapply Qle_trans; [exact Hd|]. vm_compute. congruence.
Defined.

(* ================================================================== *)
(** * The convenience wrapper *)

(** When [call_llm] returns a text, the call ended with a successful
    invocation and the text is the content of the reply of that
    invocation. *)
Theorem call_llm_returns_reply {Env : Type}
    (llm : UnifiedLLMProvider) (reg : Registry.t (@Ctor Env))
    (prompt : option string) (messages : option (list Message))
    (provider_opt model_opt : option string) (kwargs : Kwargs)
    (w : @World Env) (provider_stats : PyDict.t ProviderStats) (text : string) :
  let c := call_llm llm reg prompt messages provider_opt model_opt kwargs w
             provider_stats in
  fst c = Return text ->
  exists name k request reply evs,
    cr_trace (snd c)
    = evs ++ [EvInvoke name k request (str_or model_opt "") (Return reply)]
    /\ success reply = true
    /\ content reply = text.
Proof.
  intros c Hret. subst c. unfold call_llm in *. cbn [fst snd] in *.
  destruct messages as [ms|] eqn:Hm, prompt as [p|] eqn:Hp;
    try (cbn in Hret; discriminate Hret).
  all: rewrite call_unfold in * by (first [left; discriminate | right; discriminate]).
  all: match goal with |- context [try_providers _ _ _ _ ?st ?t ?h ?m _ _] =>
    destruct (try_providers_cases llm reg model_opt kwargs st t h m w
                provider_stats)
      as [(nm & k & new & reply & req & evs & Hs & Ht & Hk & Hr)
         |[_ (new & Hkeys & Hres)]] end.
  all: try (rewrite Hres in Hret; cbn in Hret; discriminate Hret).
  all: rewrite Hr in Hret; cbn [call_llm_outcome success content] in Hret;
    rewrite Hs in Hret; cbn [negb] in Hret; injection Hret as <-.
  all: exists nm, k, req, reply, evs; auto.
Qed.

Lemma call_llm_returns_reply_witness :
  let llm := mkProvider "_test_fail" ["_test_flaky"] 3 (1 # 100) 30 in
  let reg := Registry.register_all
               [("_test_fail", ctor_of fail_adapter);
                ("_test_flaky", ctor_of (flaky_adapter 3))] in
  let c := call_llm llm reg (Some "hello") None None None [] world0 [] in
  fst c = Return "recovered"
  /\ exists name k request reply evs,
       cr_trace (snd c)
       = evs ++ [EvInvoke name k request "" (Return reply)]
       /\ content reply = "recovered".
Proof.
  intros llm reg c. split; [reflexivity|].
  destruct (call_llm_returns_reply llm reg (Some "hello") None None None []
              world0 [] "recovered" eq_refl)
    as (name & k & request & reply & evs & Ht & _ & Hc).
  exists name, k, request, reply, evs. split; assumption.
Defined.



(* ================================================================== *)
(** * Failures that never go away *)

Section Permanent.
Context {Env : Type}.
Variables (self : UnifiedLLMProvider) (adapter : @LLMAdapter Env)
          (provider_name : string) (model_opt : option string)
          (global_errors : list ErrorRecord) (kwargs : Kwargs).
Variables (stuck : Env -> Prop) (error error_type : string).
Hypothesis always_fails :
  forall messages model_arg kw e,
    stuck e ->
    attempt_outcome (inv_outcome (adapter_call adapter messages model_arg kw e))
    = Failed error error_type
    /\ stuck (inv_env (adapter_call adapter messages model_arg kw e)).

Lemma retry_loop_always_failing todo :
  forall wait_time local_errors messages (w : @World Env),
    stuck (env w) ->
    let r := retry_loop self adapter provider_name model_opt global_errors
               kwargs todo wait_time local_errors messages w in
    failure_details (tr_trace r)
    = same_failure_each_time provider_name error error_type todo
    /\ invoke_results (tr_trace r) = repeat false (length todo)
    /\ success (tr_response r) = false.
Proof.
  induction todo as [|a todo IH]; intros wait_time local_errors messages w Hw.
  - repeat split.
  - cbn [retry_loop]. cbv zeta.
    match goal with |- context [adapter_call adapter ?ms ?md ?kw ?e] =>
      destruct (always_fails ms md kw e Hw) as [Hout Hstuck];
      set (inv := adapter_call adapter ms md kw e) in *
    end.
    rewrite Hout.
    assert (Hev : forall rq t,
               invoke_results (EvInvoke provider_name a rq
                                 (str_or model_opt "") (inv_outcome inv) :: t)
               = false :: invoke_results t)
      by (intros rq t; unfold invoke_results; cbn; now rewrite Hout).
    destruct (Nat.ltb a (max_retries self - 1)).
    + unfold backoff, random_uniform. cbv zeta.
      match goal with |- context [retry_loop _ _ _ _ _ _ _ ?wt ?l ?m ?w'] =>
        destruct (IH wt l m w' Hstuck) as (Hd & Hr & Hs) end.
      cbn [with_trace tr_trace tr_response app failure_details length repeat
             same_failure_each_time map].
      rewrite Hout, Hev, Hd, Hs.
      change (invoke_results (EvSleep ?d :: ?t)) with (invoke_results t).
      rewrite Hr. repeat split.
    + match goal with |- context [retry_loop _ _ _ _ _ _ _ ?wt ?l ?m ?w'] =>
        destruct (IH wt l m w' Hstuck) as (Hd & Hr & Hs) end.
      cbn [with_trace tr_trace tr_response app failure_details length repeat
             same_failure_each_time map].
      rewrite Hout, Hev, Hd, Hs, Hr. repeat split.
Qed.

End Permanent.



(* ================================================================== *)
(** * The Claude CLI adapter *)

Section ClaudeCLIFacts.
Variable text_of : string -> string.

(** Unless [subprocess.run] raises something other than the two
    exceptions it is guarded against, [ClaudeCLIAdapter.call] returns a
    response and does not raise.  The response is a success exactly when
    the process completed with exit code 0; any other response has empty
    content and one error dict, with an ["error"] entry.  The provider is
    ["claude_cli"] and the model ["claude-cli"] in every case, whatever
    model was asked for. *)
Theorem claude_cli_call_classifies (self : ClaudeCLIAdapter) (prompt : string)
    (messages : option (list Message)) (system : option string)
    (run : list string -> RunOutcome) (start finish : Q) :
  let cmd := cli_command self (cli_full_prompt prompt messages system) in
  (forall e, run cmd <> RunRaised e) ->
  exists resp,
    claude_cli_call text_of self prompt messages system run start finish
    = Return resp
    /\ provider resp = "claude_cli"
    /\ model resp = "claude-cli"
    /\ (success resp = true <-> exists out err, run cmd = Completed 0 out err)
    /\ (success resp = false ->
        content resp = ""
        /\ exists text, error_history resp = Some [Some text])
    /\ (success resp = true -> error_history resp = None).
Proof.
  intros cmd Hrun. unfold claude_cli_call. fold cmd.
  destruct (run cmd) as [rc out err| | |e] eqn:E.
  - destruct (Z.eqb_spec rc 0) as [->|Hrc]; cbn [negb].
    + eexists. split; [reflexivity|]. cbn.
      repeat split; eauto; discriminate.
    + eexists. split; [reflexivity|]. cbn.
      repeat split; eauto; try discriminate.
      intros (out' & err' & [= H _ _]). congruence.
  - eexists. split; [reflexivity|]. cbn.
    repeat split; eauto; try discriminate.
    intros (out' & err' & H). discriminate H.
  - eexists. split; [reflexivity|]. cbn.
    repeat split; eauto; try discriminate.
    intros (out' & err' & H). discriminate H.
  - destruct (Hrun e). reflexivity.
Qed.



End ClaudeCLIFacts.

Lemma claude_cli_call_classifies_witness :
  exists resp,
    claude_cli_call (fun s => s) (new_claude_cli None None None) "hello" None None
      (fun _ => TimeoutExpired) 0 1
    = Return resp
    /\ success resp = false
    /\ error_history resp = Some [Some "Claude CLI timed out after 300s"].
Proof.
  assert (Hrun : forall e,
             (fun _ : list string => TimeoutExpired)
               (cli_command (new_claude_cli None None None)
                  (cli_full_prompt "hello" None None))
             <> RunRaised e) by discriminate.
  destruct (claude_cli_call_classifies (fun s => s) (new_claude_cli None None None) "hello"
              None None (fun _ => TimeoutExpired) 0 1 Hrun)
    as (resp & Hret & _).
  exists resp. split; [exact Hret|].
  injection Hret as <-. split; reflexivity.
Defined.




(* ================================================================== *)
(** * Registering many times *)

Lemma find_in_app {A} (f : A -> bool) (l1 l2 : list A) :
  find f (l1 ++ l2)
  = match find f l1 with Some x => Some x | None => find f l2 end.
Proof.
  induction l1 as [|x l1 IH]; cbn [app find]; auto.
  now destruct (f x).
Qed.

Lemma fold_register_get {C : Type} (regs : list (string * C)) :
  forall (r : Registry.t C) name,
    PyDict.get
      (fold_left (fun r nc => Registry.register_adapter r (fst nc) (snd nc))
         regs r) name
    = match find (fun nc => String.eqb (fst nc) name) (rev regs) with
      | Some nc => Some (snd nc)
      | None => PyDict.get r name
      end.
Proof.
  induction regs as [|[k c] regs IH]; intros r name; [reflexivity|].
  cbn [fold_left rev fst snd]. rewrite IH, find_in_app.
  destruct (find _ (rev regs)); [reflexivity|].
  cbn [find fst snd]. unfold Registry.register_adapter.
  destruct (String.eqb_spec k name) as [->|Hne].
  - apply get_set_same.
  - apply get_set_other. congruence.
Qed.

(** After any sequence of registrations, looking a name up gives the
    constructor of the latest registration under that name, and raises
    exactly when the name was never registered. *)
Theorem register_all_last_wins {Env : Type}
    (regs : list (string * @Ctor Env)) (name : string) :
  Registry.get_adapter_ctor (Registry.register_all regs) name
  = match find (fun nc => String.eqb (fst nc) name) (rev regs) with
    | Some nc => Return (snd nc)
    | None =>
        Raise (ValueError
                 (Registry.unknown_adapter_message
                    (Registry.register_all regs) name))
    end.
Proof.
  unfold Registry.get_adapter_ctor, PyDict.contains, Registry.register_all.
  rewrite fold_register_get. cbn [PyDict.get].
  destruct (find _ (rev regs)); reflexivity.
Qed.
